(** * masterblog: the post store and its five request handlers

    A shallow embedding of [backend/backend_app.py], the Flask backend of
    the blog: the module-level list [POSTS] and the handlers [get_posts],
    [add_post], [delete_post], [update_post] and [search_posts].

    Conventions of the embedding.
    - The global list [POSTS] is threaded explicitly: a handler that
      mutates it takes the list and returns the new list beside its
      outcome.  Every element of [POSTS] is a dict of its own (the two
      literals of the seed, the [new_post] of [add_post], the
      [updated_post] of [update_post]), and the lists handed to [jsonify]
      are serialised before the handler returns, so no two entries alias
      and a list of records is an exact picture of the store.
    - A JSON field value is a [value]: null, a boolean, an integer or a
      string.  Arrays, objects and floating point numbers as field values
      are outside the model.  A request body is a JSON object or null.
    - Text is a [string] whose characters are read as the code points
      0..255; [lower] is Python's [str.lower] on that range.
    - An uncaught Python exception is the outcome [Raises]. *)

From Stdlib Require Import ZArith Ascii String List Sorted Permutation Lia.
From stdpp Require Import base option list sorting gmap strings pretty.

Local Open Scope Z_scope.
Local Open Scope string_scope.
Local Open Scope list_scope.

(** ** Values and posts *)

Inductive value : Type :=
  | VNull
  | VBool (b : bool)
  | VInt (n : Z)
  | VStr (s : string).

Global Instance value_eq_dec : EqDecision value.
Proof. solve_decision. Defined.

(** Python's truth value of a JSON scalar: [None], [False], [0] and [""]
    are falsy. *)
Definition truthy (v : value) : bool :=
  match v with
  | VNull => false
  | VBool b => b
  | VInt n => negb (Z.eqb n 0)
  | VStr s => negb (String.eqb s "")
  end.

(** The truth value of what [request.args.get] returns: [None] when the
    parameter is absent, else the text supplied (possibly empty). *)
Definition arg_truthy (a : option string) : bool :=
  match a with
  | None => false
  | Some s => negb (String.eqb s "")
  end.

Record post : Type := Post {
  id : Z;
  title : value;
  content : value
}.

Global Instance post_eq_dec : EqDecision post.
Proof. solve_decision. Defined.

(** [post[k]]: a post is a dict with the three keys. *)
Definition getitem (p : post) (k : string) : option value :=
  if String.eqb k "id" then Some (VInt (id p))
  else if String.eqb k "title" then Some (title p)
  else if String.eqb k "content" then Some (content p)
  else None.

Definition POSTS : list post :=
  [ Post 1 (VStr "First post") (VStr "This is the first post.");
    Post 2 (VStr "Second post") (VStr "This is the second post.") ].

(** ** Outcomes *)

Inductive exn : Type :=
  | IndexError
  | KeyError
  | TypeError
  | AttributeError.

(** What [jsonify] is given. *)
Inductive body : Type :=
  | JPosts (l : list post)
  | JPost (p : post)
  | JError (msg : string)
  | JMessage (msg : string).

Inductive outcome : Type :=
  | Response (b : body) (status : Z)
  | Raises (e : exn).

(** A computation that may raise. *)
Inductive res (A : Type) : Type :=
  | Ok (a : A)
  | Exc (e : exn).
Arguments Ok {A} a.
Arguments Exc {A} e.

Global Instance res_ret : MRet res := fun _ a => Ok a.

Global Instance res_bind : MBind res := fun _ _ f m =>
  match m with
  | Ok a => f a
  | Exc e => Exc e
  end.

(** ** Text *)

(** [str.lower] on one code point below 256: the capitals are A..Z,
    U+00C0..U+00D6 and U+00D8..U+00DE, each 32 below its small letter. *)
Definition lower_char (c : ascii) : ascii :=
  let n := N_of_ascii c in
  if ((65 <=? n) && (n <=? 90) || (192 <=? n) && (n <=? 214)
      || (216 <=? n) && (n <=? 222))%N
  then ascii_of_N (n + 32) else c.

Fixpoint lower (s : string) : string :=
  match s with
  | EmptyString => EmptyString
  | String c s' => String (lower_char c) (lower s')
  end.

Fixpoint startswith (a b : string) : bool :=
  match a, b with
  | EmptyString, _ => true
  | String x a', String y b' => Ascii.eqb x y && startswith a' b'
  | String _ _, EmptyString => false
  end.

(** [a in b] on strings. *)
Fixpoint str_in (a b : string) : bool :=
  startswith a b ||
  match b with
  | EmptyString => false
  | String _ b' => str_in a b'
  end.

(** [', '.join(l)]. *)
Fixpoint join (sep : string) (l : list string) : string :=
  match l with
  | [] => ""
  | [x] => x
  | x :: l' => x +:+ sep +:+ join sep l'
  end.

(** [str(n)] of an integer, as an f-string formats it. *)
Definition str_of_int (n : Z) : string := pretty n.

(** ** Ordering of sort keys *)

Definition as_number (v : value) : option Z :=
  match v with
  | VInt n => Some n
  | VBool b => Some (if b then 1 else 0)
  | _ => None
  end.

(** Python's [a < b], the only comparison [list.sort] makes: text against
    text by code points, numbers (booleans are numbers) against numbers,
    and [TypeError] for anything else. *)
Definition py_lt (a b : value) : res bool :=
  match a, b with
  | VStr s, VStr t => Ok (String.ltb s t)
  | _, _ =>
    match as_number a, as_number b with
    | Some m, Some n => Ok (Z.ltb m n)
    | _, _ => Exc TypeError
    end
  end.

(** ** [list.sort(key=..., reverse=...)]

    [list.sort] is a stable comparison sort that asks only [<] of the keys
    and lets an exception of [<] escape.  Its result, when it has one, is
    the stable arrangement, which insertion from the right computes too.
    On scalar keys it raises exactly when insertion does: with two or more
    entries every key meets another one, and keys of two kinds cannot be
    put in order without a comparison across the kinds. *)

Section Sort.
Context {A : Type} (key : A -> value).

(** [x] stood before every entry of the sorted [l]: it goes in front of
    the first entry that is not smaller. *)
Fixpoint insert_sorted (x : A) (l : list A) : res (list A) :=
  match l with
  | [] => Ok [x]
  | y :: l' =>
    b ← py_lt (key y) (key x);
    if b : bool then l'' ← insert_sorted x l'; Ok (y :: l'')
    else Ok (x :: y :: l')
  end.

Fixpoint sort_asc (l : list A) : res (list A) :=
  match l with
  | [] => Ok []
  | x :: l' => s ← sort_asc l'; insert_sorted x s
  end.

(** With [reverse=True] the list is reversed, sorted and reversed again,
    which keeps entries of equal key in their original order. *)
Definition list_sort (reverse : bool) (l : list A) : res (list A) :=
  if reverse then s ← sort_asc (rev l); Ok (rev s) else sort_asc l.
End Sort.

(** The keys [post[sort_field]] are computed before any comparison. *)
Fixpoint sort_keys (k : string) (l : list post) : res (list (value * post)) :=
  match l with
  | [] => Ok []
  | p :: l' =>
    match getitem p k with
    | None => Exc KeyError
    | Some v => r ← sort_keys k l'; Ok ((v, p) :: r)
    end
  end.

(** ** The handlers *)

(** [GET /api/posts] *)
Definition get_posts (posts : list post)
    (sort_field sort_direction : option string) : outcome :=
  if arg_truthy sort_field
     && negb (bool_decide (sort_field ∈ [Some "title"; Some "content"]))
  then Response (JError "Invalid sort field. Allowed values: title, content") 400
  else if arg_truthy sort_direction
     && negb (bool_decide (sort_direction ∈ [Some "asc"; Some "desc"]))
  then Response (JError "Invalid sort direction. Allowed values: asc, desc") 400
  else
    let sorted_posts := posts in
    if arg_truthy sort_field && arg_truthy sort_direction then
      match
        (* [sort_field] is text here, [default] only unwraps it *)
        keyed ← sort_keys (default "" sort_field) sorted_posts;
        list_sort fst (bool_decide (sort_direction = Some "desc")) keyed
      with
      | Ok s => Response (JPosts (snd <$> s)) 200
      | Exc e => Raises e
      end
    else Response (JPosts sorted_posts) 200.

(** [POST /api/posts].  The body [request.get_json()] is [None] (JSON
    null) or a dict. *)
Definition required_fields : list string := ["title"; "content"].

Definition missing_field (d : gmap string value) (field : string) : bool :=
  match d !! field with
  | None => true
  | Some v => negb (truthy v)
  end.

Definition missing_fields (d : gmap string value) : list string :=
  List.filter (missing_field d) required_fields.

Definition body_truthy (payload : option (gmap string value)) : bool :=
  match payload with
  | None => false
  | Some d => negb (bool_decide (d = ∅))
  end.

Definition add_post (posts : list post) (payload : option (gmap string value))
    : outcome * list post :=
  match payload with
  | Some d =>
    if negb (body_truthy payload)
    then (Response (JError "No data provided") 400, posts)
    else
      let missing := missing_fields d in
      match missing with
      | _ :: _ =>
        (Response (JError ("Missing or empty fields: " +:+ join ", " missing)) 400,
         posts)
      | [] =>
        match last posts, d !! "title", d !! "content" with
        | None, _, _ => (Raises IndexError, posts)
        | Some l, Some t, Some c =>
          let new_post := Post (id l + 1) t c in
          (Response (JPost new_post) 201, posts ++ [new_post])
        | Some _, _, _ => (Raises KeyError, posts)
        end
      end
  | None => (Response (JError "No data provided") 400, posts)
  end.

(** [DELETE /api/posts/<int:post_id>]: the scan of the loop, [None] when
    it runs to the end. *)
Fixpoint delete_first (post_id : Z) (l : list post) : option (list post) :=
  match l with
  | [] => None
  | p :: l' =>
    if Z.eqb (id p) post_id then Some l'
    else (cons p) <$> delete_first post_id l'
  end.

Definition delete_post (posts : list post) (post_id : Z)
    : outcome * list post :=
  match delete_first post_id posts with
  | Some posts' =>
    (Response (JMessage ("Post with id " +:+ str_of_int post_id
                         +:+ " has been deleted successfully.")) 200,
     posts')
  | None =>
    (Response (JError ("Post with id " +:+ str_of_int post_id
                       +:+ " not found.")) 404,
     posts)
  end.

(** [PUT /api/posts/<int:post_id>].  [request.json.get(k, dflt)]: on a
    body that is [None] the attribute [get] is missing. *)
Definition json_get (payload : option (gmap string value)) (k : string)
    (dflt : value) : res value :=
  match payload with
  | None => Exc AttributeError
  | Some d => Ok (default dflt (d !! k))
  end.

(** The scan of the loop: [None] when no entry has the id, else the
    record built for the reply and the list with the entry rewritten in
    place. *)
Fixpoint update_first (post_id : Z) (payload : option (gmap string value))
    (l : list post) : option (res (post * list post)) :=
  match l with
  | [] => None
  | p :: l' =>
    if Z.eqb (id p) post_id then
      Some (new_title ← json_get payload "title" (title p);
            new_content ← json_get payload "content" (content p);
            let p' := Post (id p) new_title new_content in
            let updated_post := Post (id p') new_title new_content in
            Ok (updated_post, p' :: l'))
    else
      r ← update_first post_id payload l';
      Some (x ← r; Ok (x.1, p :: x.2))
  end.

Definition update_post (posts : list post) (post_id : Z)
    (payload : option (gmap string value)) : outcome * list post :=
  match update_first post_id payload posts with
  | Some (Ok (updated_post, posts')) =>
    (Response (JPost updated_post) 200, posts' ++ [updated_post])
  | Some (Exc e) => (Raises e, posts)
  | None =>
    (Response (JError ("Post with id " +:+ str_of_int post_id
                       +:+ " not found.")) 404,
     posts)
  end.

(** [GET /api/posts/search].  One operand of the [or]: the filter, when
    truthy, lowered and looked for in the lowered field; a field that is
    not text has no [lower]. *)
Definition filter_matches (search : option string) (field : value) : res bool :=
  if arg_truthy search then
    match field with
    | VStr s => Ok (str_in (lower (default "" search)) (lower s))
    | _ => Exc AttributeError
    end
  else Ok false.

Definition post_matches (search_title search_content : option string)
    (p : post) : res bool :=
  b ← filter_matches search_title (title p);
  if b : bool then Ok true else filter_matches search_content (content p).

Fixpoint matching (search_title search_content : option string)
    (l : list post) : res (list post) :=
  match l with
  | [] => Ok []
  | p :: l' =>
    b ← post_matches search_title search_content p;
    r ← matching search_title search_content l';
    Ok (if b : bool then p :: r else r)
  end.

Definition search_posts (posts : list post)
    (search_title search_content : option string) : outcome :=
  match matching search_title search_content posts with
  | Ok matching_posts => Response (JPosts matching_posts) 200
  | Exc e => Raises e
  end.

(** ** Requests and runs *)

Inductive request : Type :=
  | GetPosts (sort_field sort_direction : option string)
  | AddPost (payload : option (gmap string value))
  | DeletePost (post_id : Z)
  | UpdatePost (post_id : Z) (payload : option (gmap string value))
  | SearchPosts (search_title search_content : option string).

Definition handle (posts : list post) (r : request) : outcome * list post :=
  match r with
  | GetPosts f d => (get_posts posts f d, posts)
  | AddPost b => add_post posts b
  | DeletePost i => delete_post posts i
  | UpdatePost i b => update_post posts i b
  | SearchPosts t c => (search_posts posts t c, posts)
  end.

(** The store after a sequence of requests. *)
Definition run (posts : list post) (rs : list request) : list post :=
  fold_left (fun st r => (handle st r).2) rs posts.

(** ** Vocabulary of the statements *)

(** A field that holds text, as the data model has every title and
    content. *)
Definition is_text (v : value) : Prop :=
  match v with
  | VStr _ => True
  | _ => False
  end.

Definition text_post (p : post) : Prop :=
  is_text (title p) /\ is_text (content p).

(** Text against text, by code points: [a <= b]. *)
Definition value_le (a b : value) : Prop :=
  match a, b with
  | VStr s, VStr t => String.leb s t = true
  | _, _ => False
  end.

(** The order of two entries of a sort, by the text of their keys. *)
Definition key_le {A : Type} (key : A -> value) (x y : A) : Prop :=
  value_le (key x) (key y).

(** [p[k] <= q[k]] on the text of field [k]. *)
Definition field_le (k : string) (p q : post) : Prop :=
  match getitem p k, getitem q k with
  | Some a, Some b => value_le a b
  | _, _ => False
  end.

(** A field of a request body that is missing or holds a falsy value. *)
Definition absent_or_falsy (d : gmap string value) (field : string) : Prop :=
  match d !! field with
  | None => True
  | Some v => truthy v = false
  end.

(** The two messages that name a post. *)
Definition not_found_message (post_id : Z) : string :=
  "Post with id " +:+ str_of_int post_id +:+ " not found.".

Definition deleted_message (post_id : Z) : string :=
  "Post with id " +:+ str_of_int post_id
  +:+ " has been deleted successfully.".

(** [f] occurs in [t] when case is ignored: some contiguous piece of [t]
    has the same lowering as [f]. *)
Definition ci_substring (f t : string) : Prop :=
  exists pre u suf, t = pre +:+ u +:+ suf /\ lower u = lower f.

(** A filter that was given and occurs in the text of the field. *)
Definition given_hit (search : option string) (field : value) : Prop :=
  exists f t, search = Some f /\ field = VStr t /\ ci_substring f t.

(** The same for a filter that is moreover not the empty string. *)
Definition nonempty_hit (search : option string) (field : value) : Prop :=
  exists f t, search = Some f /\ f <> "" /\ field = VStr t /\ ci_substring f t.

(** [exactly P l r]: [r] is made of the entries of [l] that satisfy [P],
    each as often as in [l] and in the order of [l]. *)
Inductive exactly (P : post -> Prop) : list post -> list post -> Prop :=
  | exactly_nil : exactly P [] []
  | exactly_keep p l r : P p -> exactly P l r -> exactly P (p :: l) (p :: r)
  | exactly_skip p l r : ~ P p -> exactly P l r -> exactly P (p :: l) r.

(** The requests other than an update. *)
Definition not_update (r : request) : Prop :=
  match r with
  | UpdatePost _ _ => False
  | _ => True
  end.

(** The ids of a store, in its order. *)
Definition ids (posts : list post) : list Z := id <$> posts.

(** A post whose title and content are both non-empty (truthy). *)
Definition nonempty_post (p : post) : Prop :=
  truthy (title p) = true /\ truthy (content p) = true.



(** The values [post[k]] of a store, in its order. *)
Definition field_values (k : string) (posts : list post) : list value :=
  omap (fun p => getitem p k) posts.

(** * Properties *)

(** ** The scenarios of the specification *)

Example list_by_title_desc :
  get_posts POSTS (Some "title") (Some "desc")
    = Response
        (JPosts [ Post 2 (VStr "Second post") (VStr "This is the second post.");
                  Post 1 (VStr "First post") (VStr "This is the first post.") ])
        200.
Proof. reflexivity. Qed.

Example create_third :
  add_post POSTS (Some {[ "title" := VStr "Third"; "content" := VStr "Body" ]})
    = (Response (JPost (Post 3 (VStr "Third") (VStr "Body"))) 201,
       POSTS ++ [Post 3 (VStr "Third") (VStr "Body")]).
Proof. reflexivity. Qed.

Example create_without_title :
  add_post POSTS (Some {[ "content" := VStr "Body" ]})
    = (Response (JError "Missing or empty fields: title") 400, POSTS).
Proof. reflexivity. Qed.

Example search_ignores_case :
  search_posts POSTS (Some "POST") None = Response (JPosts POSTS) 200.
Proof. reflexivity. Qed.

(** Where the code raises: an empty store has no last entry, a body that
    is null has no [get], a title that is a number has no [lower] and is
    not ordered against text. *)
Example create_on_empty_store :
  add_post [] (Some {[ "title" := VStr "T"; "content" := VStr "C" ]})
    = (Raises IndexError, []).
Proof. reflexivity. Qed.

Example update_with_null_body :
  update_post POSTS 1 None = (Raises AttributeError, POSTS).
Proof. reflexivity. Qed.

Example search_number_title :
  search_posts [Post 1 (VInt 5) (VStr "c")] (Some "a") None
    = Raises AttributeError.
Proof. reflexivity. Qed.

Example sort_number_against_text :
  get_posts (Post 3 (VInt 5) (VStr "c") :: POSTS) (Some "title") (Some "asc")
    = Raises TypeError.
Proof. reflexivity. Qed.

(** ** Text: substrings and the order of strings *)

Lemma startswith_spec (a b : string) :
  startswith a b = true <-> exists suf, b = a +:+ suf.
Proof.
  revert b; induction a as [|x a IH]; intros b; simpl.
  - split; [intros _; by exists b | done].
  - destruct b as [|y b].
    + split; [done | intros [suf H]; discriminate].
    + rewrite andb_true_iff, Ascii.eqb_eq, IH. split.
      * intros [-> [suf ->]]. by exists suf.
      * intros [suf H]. injection H as -> ->. eauto.
Qed.

(** [str_in a b] holds exactly when [a] occurs in [b] as a contiguous
    piece. *)
Lemma str_in_spec (a b : string) :
  str_in a b = true <-> exists pre suf, b = pre +:+ a +:+ suf.
Proof.
  induction b as [|y b IH]; simpl.
  - rewrite orb_false_r, startswith_spec. split.
    + intros [suf H]. by exists "", suf.
    + intros [pre [suf H]]. destruct pre; [by exists suf | discriminate].
  - rewrite orb_true_iff, startswith_spec, IH. split.
    + intros [[suf H] | [pre [suf H]]].
      * by exists "", suf.
      * exists (String y pre), suf. simpl. by rewrite H.
    + intros [pre [suf H]]. destruct pre as [|z pre]; simpl in H.
      * left. by exists suf.
      * right. injection H as _ H. by exists pre, suf.
Qed.

Lemma str_in_empty (b : string) : str_in "" b = true.
Proof. destruct b; reflexivity. Qed.

Lemma ascii_compare_N (a b : ascii) :
  Ascii.compare a b = N.compare (N_of_ascii a) (N_of_ascii b).
Proof. reflexivity. Qed.

Lemma string_compare_refl (s : string) : String.compare s s = Eq.
Proof.
  induction s as [|a s IH]; simpl; [done|].
  by rewrite ascii_compare_N, N.compare_refl.
Qed.

Lemma string_compare_lt_trans (s t u : string) :
  String.compare s t = Lt -> String.compare t u = Lt ->
  String.compare s u = Lt.
Proof.
  revert t u; induction s as [|a s IH]; intros [|b t] [|c u]; simpl;
    try done.
  rewrite !ascii_compare_N.
  destruct (N.compare_spec (N_of_ascii a) (N_of_ascii b)) as [Hab|Hab|Hab];
    destruct (N.compare_spec (N_of_ascii b) (N_of_ascii c)) as [Hbc|Hbc|Hbc];
    try done; intros H1 H2.
  - rewrite Hab, Hbc, N.compare_refl. eauto.
  - rewrite Hab. by apply N.compare_lt_iff in Hbc as ->.
  - rewrite <- Hbc. by apply N.compare_lt_iff in Hab as ->.
  - assert (N_of_ascii a < N_of_ascii c)%N as Hac by lia.
    by apply N.compare_lt_iff in Hac as ->.
Qed.

Lemma string_leb_trans (s t u : string) :
  String.leb s t = true -> String.leb t u = true -> String.leb s u = true.
Proof.
  unfold String.leb.
  destruct (String.compare s t) eqn:Hst; try done;
    destruct (String.compare t u) eqn:Htu; try done; intros _ _.
  - apply String.compare_eq_iff in Hst as ->. by rewrite Htu.
  - apply String.compare_eq_iff in Hst as ->. by rewrite Htu.
  - apply String.compare_eq_iff in Htu as <-. by rewrite Hst.
  - by rewrite (string_compare_lt_trans s t u).
Qed.

Lemma string_ltb_leb (s t : string) :
  String.ltb s t = true -> String.leb s t = true.
Proof. unfold String.ltb, String.leb. by destruct (String.compare s t). Qed.

Lemma string_nltb_leb (s t : string) :
  String.ltb s t = false -> String.leb t s = true.
Proof.
  unfold String.ltb, String.leb. rewrite (String.compare_antisym s t).
  by destruct (String.compare t s).
Qed.

Lemma N_of_ascii_inj (a b : ascii) : N_of_ascii a = N_of_ascii b -> a = b.
Proof.
  intros H. rewrite <- (ascii_N_embedding a), <- (ascii_N_embedding b).
  by rewrite H.
Qed.

(** The order of strings is the lexicographic one on code points: [s] is
    below [t] when it is a proper prefix of [t], or when at the first
    place where they differ [s] has the smaller code point. *)
Lemma string_ltb_lexicographic (s t : string) :
  String.ltb s t = true <->
  (exists c suf, t = s +:+ String c suf) \/
  (exists pre a b s' t',
     s = pre +:+ String a s' /\ t = pre +:+ String b t' /\
     (N_of_ascii a < N_of_ascii b)%N).
Proof.
  revert t. induction s as [|a s IH]; intros [|b t].
  - split; [done|].
    intros [(c & suf & H)|(pre & a & b & s' & t' & H & _)];
      [done|by destruct pre].
  - split; [|done]. intros _. left. by exists b, t.
  - split; [done|].
    intros [(c & suf & H)|(pre & a' & b & s' & t' & _ & H & _)];
      [done|by destruct pre].
  - unfold String.ltb in *. simpl. unfold Ascii.compare.
    destruct (N.compare_spec (N_of_ascii a) (N_of_ascii b)) as [E|E|E].
    + apply N_of_ascii_inj in E as <-. rewrite IH. split.
      * intros [(c & suf & ->)|(pre & x & y & s' & t' & -> & -> & Hxy)].
        -- left. by exists c, suf.
        -- right. by exists (String a pre), x, y, s', t'.
      * intros [(c & suf & H)|(pre & x & y & s' & t' & Hs & Ht & Hxy)].
        -- injection H as ->. left. by exists c, suf.
        -- destruct pre as [|z pre]; simpl in *.
           ++ injection Hs as <- _. injection Ht as <- _. lia.
           ++ injection Hs as _ ->. injection Ht as _ ->.
              right. by exists pre, x, y, s', t'.
    + split; [|done]. intros _. right. by exists "", a, b, s, t.
    + split; [done|].
      intros [(c & suf & H)|(pre & x & y & s' & t' & Hs & Ht & Hxy)].
      * injection H as -> _. lia.
      * destruct pre as [|z pre]; simpl in *.
        -- injection Hs as <- _. injection Ht as <- _. lia.
        -- injection Hs as <- _. injection Ht as <- _. lia.
Qed.

(** The order looks at the raw text: a capital letter comes before every
    small one. *)
Example raw_text_order :
  String.ltb "Zebra" "apple" = true /\ String.ltb "apple" "Zebra" = false.
Proof. split; reflexivity. Qed.

(** ** The sort on text keys *)

Section SortFacts.
Context {A : Type} (key : A -> value).

Lemma key_le_trans (x y z : A) :
  key_le key x y -> key_le key y z -> key_le key x z.
Proof.
  unfold key_le, value_le.
  destruct (key x), (key y), (key z); try done. apply string_leb_trans.
Qed.

Lemma insert_sorted_text (x : A) (l : list A) :
  is_text (key x) -> Forall (fun y => is_text (key y)) l ->
  StronglySorted (key_le key) l ->
  exists l', insert_sorted key x l = Ok l' /\ l' ≡ₚ x :: l /\
             StronglySorted (key_le key) l'.
Proof.
  intros Hx. induction l as [|y l IH]; intros Hl Hs; simpl.
  - exists [x]. repeat split; [done|]. repeat constructor.
  - apply Forall_cons in Hl as [Hy Hl].
    apply StronglySorted_cons in Hs as [Hyl Hs].
    assert (forall b, py_lt (key y) (key x) = Ok b ->
              b = true /\ key_le key y x \/ b = false /\ key_le key x y) as Hcmp.
    { unfold key_le, value_le, py_lt.
      destruct (key x) as [| | |s], (key y) as [| | |t]; try done.
      intros b [= <-]. destruct (String.ltb t s) eqn:E.
      - left. eauto using string_ltb_leb.
      - right. eauto using string_nltb_leb. }
    destruct (py_lt (key y) (key x)) as [b|e] eqn:E.
    2:{ unfold py_lt in E.
        by destruct (key x) as [| | |s], (key y) as [| | |t]. }
    destruct (Hcmp b eq_refl) as [[-> Hle]|[-> Hle]]; simpl.
    + destruct (IH Hl Hs) as (l' & -> & Hp & Hs'). simpl.
      exists (y :: l'). repeat split.
      * rewrite Hp. apply perm_swap.
      * apply StronglySorted_cons. split; [|done].
        rewrite Hp. by constructor.
    + exists (x :: y :: l). repeat split; [done|].
      apply StronglySorted_cons. split.
      * constructor; [done|].
        eapply Forall_impl; [exact Hyl|]. intros z. by apply key_le_trans.
      * by apply StronglySorted_cons.
Qed.

Lemma sort_asc_text (l : list A) :
  Forall (fun y => is_text (key y)) l ->
  exists l', sort_asc key l = Ok l' /\ l' ≡ₚ l /\ StronglySorted (key_le key) l'.
Proof.
  induction l as [|x l IH]; intros Hl; simpl.
  - exists []. repeat split; [done|constructor].
  - apply Forall_cons in Hl as [Hx Hl].
    destruct (IH Hl) as (s & -> & Hp & Hs). simpl.
    destruct (insert_sorted_text x s Hx) as (l' & E & Hp' & Hs'); [|done|].
    { by rewrite Hp. }
    exists l'. repeat split; [done| |done]. by rewrite Hp', Hp.
Qed.

Lemma StronglySorted_rev (R : relation A) (l : list A) :
  StronglySorted R l -> StronglySorted (flip R) (rev l).
Proof.
  induction 1 as [|x l Hs IH Hx]; simpl; [constructor|].
  apply StronglySorted_app. repeat split; [|done|repeat constructor].
  intros x1 x2 H1 ->%list_elem_of_singleton.
  rewrite Forall_forall in Hx. apply Hx.
  apply list_elem_of_In. apply <- in_rev. by apply list_elem_of_In.
Qed.

Lemma list_sort_text (reverse : bool) (l : list A) :
  Forall (fun y => is_text (key y)) l ->
  exists l', list_sort key reverse l = Ok l' /\ l' ≡ₚ l /\
    StronglySorted (if reverse then flip (key_le key) else key_le key) l'.
Proof.
  intros Hl. destruct reverse; simpl; [|by apply sort_asc_text].
  destruct (sort_asc_text (rev l)) as (s & -> & Hp & Hs).
  { apply Forall_forall. intros y Hy. rewrite Forall_forall in Hl.
    apply Hl, list_elem_of_In. apply <- in_rev. by apply list_elem_of_In. }
  simpl. exists (rev s). repeat split; [|by apply StronglySorted_rev].
  rewrite <- (rev_involutive l). by apply Permutation_rev'.
Qed.
End SortFacts.

(** ** Listing *)

Lemma StronglySorted_on {A : Type} (R1 R2 : relation A) (l : list A) :
  (forall x y, x ∈ l -> y ∈ l -> R1 x y -> R2 x y) ->
  StronglySorted R1 l -> StronglySorted R2 l.
Proof.
  intros H Hs. induction Hs as [|x l Hs IH Hx]; constructor.
  - apply IH. intros y z Hy Hz. apply H; by constructor.
  - rewrite Forall_forall in Hx |- *. intros y Hy.
    apply H; [constructor|by constructor|by apply Hx].
Qed.

Lemma sort_keys_ok (k : string) (posts : list post) :
  (forall p, is_Some (getitem p k)) ->
  exists keyed, sort_keys k posts = Ok keyed /\ snd <$> keyed = posts /\
    Forall (fun kp => getitem kp.2 k = Some kp.1) keyed.
Proof.
  intros Hk. induction posts as [|p posts (keyed & E & Hsnd & Hall)]; simpl.
  - by exists [].
  - destruct (Hk p) as [v Hv]. rewrite Hv, E. simpl.
    exists ((v, p) :: keyed). repeat split; [by rewrite <- Hsnd|].
    by constructor.
Qed.

Lemma getitem_text (k : string) (p : post) :
  k ∈ ["title"; "content"] -> text_post p ->
  exists v, getitem p k = Some v /\ is_text v.
Proof.
  intros Hk [Ht Hc]. set_unfold in Hk. destruct Hk as [->| [->|[]]]; eauto.
Qed.

(** With a valid field and a valid direction the reply is the stable
    sort of the store on the text of that field. *)
Lemma get_posts_sorts (posts : list post) (f d : string) :
  f ∈ ["title"; "content"] -> d ∈ ["asc"; "desc"] ->
  Forall text_post posts ->
  exists l, get_posts posts (Some f) (Some d) = Response (JPosts l) 200 /\
    l ≡ₚ posts /\
    StronglySorted
      (if bool_decide (d = "desc") then flip (field_le f) else field_le f) l.
Proof.
  intros Hf Hd Htext.
  assert (get_posts posts (Some f) (Some d) =
          match keyed ← sort_keys f posts;
                list_sort fst (bool_decide (d = "desc")) keyed with
          | Ok s => Response (JPosts (snd <$> s)) 200
          | Exc e => Raises e
          end) as ->.
  { set_unfold in Hf. set_unfold in Hd.
    destruct Hf as [->|[->|[]]], Hd as [->|[->|[]]]; reflexivity. }
  destruct (sort_keys_ok f posts) as (keyed & -> & Hsnd & Hkeys).
  { intros p. set_unfold in Hf. destruct Hf as [->|[->|[]]]; by eexists. }
  simpl.
  assert (Forall (fun kp => is_text kp.1) keyed) as Hkt.
  { rewrite Forall_forall in Hkeys. rewrite Forall_forall in Htext.
    apply Forall_forall. intros [v p] Hin.
    destruct (getitem_text f p Hf) as (v' & Hv' & Ht).
    - apply Htext. rewrite <- Hsnd. apply list_elem_of_fmap. by exists (v, p).
    - specialize (Hkeys _ Hin). simpl in *. congruence. }
  destruct (list_sort_text fst (bool_decide (d = "desc")) keyed Hkt)
    as (s & -> & Hp & Hs).
  exists (snd <$> s). repeat split.
  - by rewrite Hp, Hsnd.
  - assert (Forall (fun kp => getitem kp.2 f = Some kp.1) s) as Hks
      by (by rewrite Hp).
    rewrite Forall_forall in Hks.
    assert (forall x y : value * post, x ∈ s -> y ∈ s ->
              key_le fst x y -> field_le f x.2 y.2) as Hle.
    { intros x y Hx Hy. unfold field_le, key_le.
      by rewrite (Hks _ Hx), (Hks _ Hy). }
    destruct (bool_decide (d = "desc")).
    + apply (StronglySorted_fmap snd (fun x y => field_le f y.2 x.2));
        [done|].
      eapply StronglySorted_on; [|exact Hs]. intros x y Hx Hy. by apply Hle.
    + apply (StronglySorted_fmap snd (fun x y => field_le f x.2 y.2));
        [done|].
      eapply StronglySorted_on; [|exact Hs]. done.
Qed.

(** C4. When a valid sort field and a valid direction are both supplied,
    the reply of the list operation is a rearrangement of the store that
    is non-decreasing (asc) or non-increasing (desc) in the code-point
    order of that field's text; when at most one of the two is supplied
    the reply is the store in its own order. *)
Theorem C4_list_sorts_only_with_both (posts : list post)
    (sort_field sort_direction : option string) :
  sort_field ∈ [None; Some "title"; Some "content"] ->
  sort_direction ∈ [None; Some "asc"; Some "desc"] ->
  (forall f d, sort_field = Some f -> sort_direction = Some d ->
     Forall text_post posts ->
     exists l, get_posts posts sort_field sort_direction
                 = Response (JPosts l) 200 /\
       l ≡ₚ posts /\
       (d = "asc" -> StronglySorted (field_le f) l) /\
       (d = "desc" -> StronglySorted (flip (field_le f)) l)) /\
  (sort_field = None \/ sort_direction = None ->
     get_posts posts sort_field sort_direction = Response (JPosts posts) 200).
Proof.
  intros Hf Hd. split.
  - intros f d -> -> Htext.
    assert (f ∈ ["title"; "content"]) as Hf'.
    { set_unfold in Hf. set_unfold.
      destruct Hf as [?|[[= ->]|[[= ->]|[]]]]; [done|by left|by right; left]. }
    assert (d ∈ ["asc"; "desc"]) as Hd'.
    { set_unfold in Hd. set_unfold.
      destruct Hd as [?|[[= ->]|[[= ->]|[]]]]; [done|by left|by right; left]. }
    destruct (get_posts_sorts posts f d Hf' Hd' Htext) as (l & E & Hp & Hs).
    exists l. repeat split; [done|done| |]; intros ->; exact Hs.
  - set_unfold in Hf. set_unfold in Hd.
    intros [->| ->].
    + destruct Hd as [->|[->|[->|[]]]]; reflexivity.
    + destruct Hf as [->|[->|[->|[]]]]; reflexivity.
Qed.

Lemma C4_witness :
  (exists l, get_posts POSTS (Some "title") (Some "desc")
               = Response (JPosts l) 200 /\
     l ≡ₚ POSTS /\ StronglySorted (flip (field_le "title")) l) /\
  get_posts POSTS (Some "title") None = Response (JPosts POSTS) 200.
Proof.
  assert (Some "title" ∈ [None; Some "title"; Some "content"]) as Hf
    by (apply list_elem_of_further, list_elem_of_here).
  split.
  - destruct (C4_list_sorts_only_with_both POSTS (Some "title") (Some "desc") Hf)
      as [H _].
    { apply list_elem_of_further, list_elem_of_further, list_elem_of_here. }
    destruct (H "title" "desc" eq_refl eq_refl) as (l & E & Hp & _ & Hd).
    { repeat constructor. }
    exists l. repeat split; [exact E|exact Hp|exact (Hd eq_refl)].
  - apply (C4_list_sorts_only_with_both POSTS (Some "title") None Hf).
    + apply list_elem_of_here.
    + by right.
Defined.

(** ** Creating *)

Lemma missing_field_spec (d : gmap string value) (field : string) :
  missing_field d field = true <-> absent_or_falsy d field.
Proof.
  unfold missing_field, absent_or_falsy.
  destruct (d !! field) as [v|]; [|done]. by rewrite negb_true_iff.
Qed.

Lemma missing_field_false (d : gmap string value) (field : string) :
  missing_field d field = false <-> ~ absent_or_falsy d field.
Proof.
  rewrite <- missing_field_spec. by destruct (missing_field d field).
Qed.

Lemma body_truthy_nonempty (d : gmap string value) :
  d <> ∅ -> body_truthy (Some d) = true.
Proof. intros H. simpl. by rewrite bool_decide_eq_false_2. Qed.

(** C3. On a non-empty store, a body whose title and content are both
    present and non-empty is stored as a new last entry whose id is one
    more than the id of the entry that was last, and that entry is the
    reply, with status 201. *)
Theorem C3_create_appends_after_last (posts : list post)
    (d : gmap string value) (t c : value) :
  posts <> [] ->
  d !! "title" = Some t -> truthy t = true ->
  d !! "content" = Some c -> truthy c = true ->
  exists l,
    last posts = Some l /\
    add_post posts (Some d)
      = (Response (JPost (Post (id l + 1) t c)) 201,
         posts ++ [Post (id l + 1) t c]).
Proof.
  intros Hne Ht Htt Hc Hct.
  destruct (last posts) as [l|] eqn:El.
  2:{ by apply last_None in El. }
  exists l. split; [done|]. unfold add_post.
  rewrite body_truthy_nonempty.
  2:{ intros ->. by rewrite lookup_empty in Ht. }
  unfold missing_fields, required_fields, missing_field. simpl.
  by rewrite Ht, Hc, Htt, Hct, El.
Qed.

Lemma C3_witness :
  exists l,
    last POSTS = Some l /\
    add_post POSTS (Some {[ "title" := VStr "Third"; "content" := VStr "Body" ]})
      = (Response (JPost (Post (id l + 1) (VStr "Third") (VStr "Body"))) 201,
         POSTS ++ [Post (id l + 1) (VStr "Third") (VStr "Body")]).
Proof.
  apply (C3_create_appends_after_last POSTS
           {[ "title" := VStr "Third"; "content" := VStr "Body" ]}
           (VStr "Third") (VStr "Body")).
  - discriminate.
  - reflexivity.
  - reflexivity.
  - reflexivity.
  - reflexivity.
Defined.

Lemma add_post_missing (posts : list post) (d : gmap string value) :
  d <> ∅ -> missing_fields d <> [] ->
  add_post posts (Some d)
    = (Response (JError ("Missing or empty fields: "
                         +:+ join ", " (missing_fields d))) 400, posts).
Proof.
  intros Hd Hm. unfold add_post. rewrite body_truthy_nonempty by done.
  simpl. by destruct (missing_fields d).
Qed.

(** The store is written only on the path that replies 201. *)
Lemma add_post_store (posts : list post)
    (payload : option (gmap string value)) :
  (add_post posts payload).2 = posts \/
  exists p, add_post posts payload
              = (Response (JPost p) 201, posts ++ [p]).
Proof.
  unfold add_post. destruct payload as [d|]; [|by left].
  destruct (negb (body_truthy (Some d))); [by left|].
  simpl. destruct (missing_fields d); [|by left].
  destruct (last posts), (d !! "title"), (d !! "content"); eauto.
Qed.

(** C7. A body that is absent or empty is refused with status 400 and
    "No data provided"; any other body in which title or content is
    missing or falsy is refused with status 400 and "Missing or empty
    fields: " followed by the names of those fields, joined by ", "; and
    whenever the reply is not the created post the store is unchanged. *)
Theorem C7_create_validation (posts : list post)
    (payload : option (gmap string value)) :
  (payload = None \/ payload = Some ∅ ->
     add_post posts payload
       = (Response (JError "No data provided") 400, posts)) /\
  (forall d, payload = Some d -> d <> ∅ ->
     (absent_or_falsy d "title" -> ~ absent_or_falsy d "content" ->
        add_post posts payload
          = (Response (JError "Missing or empty fields: title") 400, posts)) /\
     (~ absent_or_falsy d "title" -> absent_or_falsy d "content" ->
        add_post posts payload
          = (Response (JError "Missing or empty fields: content") 400,
             posts)) /\
     (absent_or_falsy d "title" -> absent_or_falsy d "content" ->
        add_post posts payload
          = (Response (JError "Missing or empty fields: title, content") 400,
             posts))) /\
  ((forall p, (add_post posts payload).1 <> Response (JPost p) 201) ->
     (add_post posts payload).2 = posts).
Proof.
  split; [|split].
  - intros [->| ->]; reflexivity.
  - intros d -> Hd.
    repeat split; intros Ht Hc;
      repeat match goal with
      | H : ~ absent_or_falsy _ _ |- _ => apply missing_field_false in H
      | H : absent_or_falsy _ _ |- _ => apply missing_field_spec in H
      end;
      rewrite add_post_missing by
        (done || (unfold missing_fields; simpl; by rewrite Ht, Hc));
      unfold missing_fields; simpl; by rewrite Ht, Hc.
  - intros Hb. destruct (add_post_store posts payload) as [H|[p H]];
      [done|]. destruct (Hb p). by rewrite H.
Qed.

Lemma C7_witness :
  add_post POSTS (Some {[ "content" := VStr "Body" ]})
    = (Response (JError "Missing or empty fields: title") 400, POSTS) /\
  add_post POSTS (Some {[ "title" := VInt 0; "content" := VStr "" ]})
    = (Response (JError "Missing or empty fields: title, content") 400,
       POSTS) /\
  add_post POSTS (Some ∅) = (Response (JError "No data provided") 400, POSTS).
Proof.
  split; [|split].
  - apply (C7_create_validation POSTS (Some {[ "content" := VStr "Body" ]}))
      with (d := {[ "content" := VStr "Body" ]}).
    + reflexivity.
    + apply map_non_empty_singleton.
    + exact I.
    + vm_compute. discriminate.
  - apply (C7_create_validation POSTS
             (Some {[ "title" := VInt 0; "content" := VStr "" ]}))
      with (d := {[ "title" := VInt 0; "content" := VStr "" ]}).
    + reflexivity.
    + apply insert_non_empty.
    + reflexivity.
    + reflexivity.
  - apply (C7_create_validation POSTS (Some ∅)). by right.
Defined.

(** ** Deleting *)

(** [delete_first] finds the first entry with the id and drops it. *)
Lemma delete_first_Some (post_id : Z) (l l' : list post) :
  delete_first post_id l = Some l' <->
  exists l1 p l2, l = l1 ++ p :: l2 /\ id p = post_id /\
    Forall (fun q => id q <> post_id) l1 /\ l' = l1 ++ l2.
Proof.
  revert l'. induction l as [|q l IH]; intros l'; simpl.
  - split; [done|]. intros (l1 & p & l2 & H & _). by destruct l1.
  - destruct (Z.eqb_spec (id q) post_id) as [E|E].
    + split.
      * intros [= <-]. by exists [], q, l.
      * intros (l1 & p & l2 & H & Hp & Hl1 & ->).
        destruct l1 as [|q' l1]; simpl in *; [by injection H as -> ->|].
        injection H as -> ->. by apply Forall_cons in Hl1 as [? _].
    + destruct (delete_first post_id l) as [r|] eqn:Er; simpl.
      * split.
        -- intros [= <-].
           destruct (proj1 (IH r) eq_refl) as (l1 & p & l2 & -> & Hp & Hl1 & ->).
           exists (q :: l1), p, l2. repeat split; [done|by constructor].
        -- intros (l1 & p & l2 & H & Hp & Hl1 & ->).
           destruct l1 as [|q' l1]; simpl in *; [by injection H as -> ->|].
           injection H as -> ->. apply Forall_cons in Hl1 as [_ Hl1].
           f_equal. f_equal. apply Some_inj, IH. by exists l1, p, l2.
      * split; [done|].
        intros (l1 & p & l2 & H & Hp & Hl1 & ->).
        destruct l1 as [|q' l1]; simpl in *; [by injection H as -> ->|].
        injection H as -> ->. apply Forall_cons in Hl1 as [_ Hl1].
        assert (None = Some (l1 ++ l2)) by (apply IH; by exists l1, p, l2).
        done.
Qed.

Lemma delete_first_None (post_id : Z) (l : list post) :
  delete_first post_id l = None <-> Forall (fun q => id q <> post_id) l.
Proof.
  induction l as [|q l IH]; simpl; [done|].
  rewrite Forall_cons, <- IH.
  destruct (Z.eqb_spec (id q) post_id) as [E|E].
  - split; [done|]. by intros [? _].
  - destruct (delete_first post_id l); simpl; split; try done. by intros [_ ?].
Qed.

(** C6. Deleting replies 200 with the success message exactly when some
    entry has the id; then the first such entry, and nothing else, is
    gone.  Otherwise the reply is 404 with the not-found message and the
    store is as it was. *)
Theorem C6_delete_first_match (posts : list post) (post_id : Z) :
  ((delete_post posts post_id).1
     = Response (JMessage (deleted_message post_id)) 200
   <-> exists p, p ∈ posts /\ id p = post_id) /\
  ((exists p, p ∈ posts /\ id p = post_id) ->
     exists l1 p l2,
       posts = l1 ++ p :: l2 /\ id p = post_id /\
       Forall (fun q => id q <> post_id) l1 /\
       delete_post posts post_id
         = (Response (JMessage (deleted_message post_id)) 200, l1 ++ l2)) /\
  (~ (exists p, p ∈ posts /\ id p = post_id) ->
     delete_post posts post_id
       = (Response (JError (not_found_message post_id)) 404, posts)).
Proof.
  unfold delete_post, deleted_message, not_found_message.
  destruct (delete_first post_id posts) as [posts'|] eqn:E.
  - apply delete_first_Some in E as (l1 & p & l2 & -> & Hp & Hl1 & ->).
    assert (exists p0, p0 ∈ l1 ++ p :: l2 /\ id p0 = post_id) as Hex.
    { exists p. split; [|done]. apply elem_of_app. right. constructor. }
    repeat split; try done.
    + intros _. by exists l1, p, l2.
  - apply delete_first_None in E. rewrite Forall_forall in E.
    assert (~ exists p, p ∈ posts /\ id p = post_id) as Hno.
    { intros (p & Hin & Hp). by apply (E p). }
    repeat split; try done.
Qed.

Lemma C6_witness :
  (exists l1 p l2,
     POSTS = l1 ++ p :: l2 /\ id p = 2 /\
     Forall (fun q => id q <> 2) l1 /\
     delete_post POSTS 2
       = (Response (JMessage "Post with id 2 has been deleted successfully.")
            200, l1 ++ l2)) /\
  delete_post POSTS 7
    = (Response (JError "Post with id 7 not found.") 404, POSTS).
Proof.
  split.
  - apply (C6_delete_first_match POSTS 2).
    exists (Post 2 (VStr "Second post") (VStr "This is the second post.")).
    split; [|reflexivity].
    apply list_elem_of_further, list_elem_of_here.
  - apply (C6_delete_first_match POSTS 7).
    intros (p & Hin & Hp). revert Hp.
    apply elem_of_cons in Hin as [->|Hin]; [discriminate|].
    apply elem_of_cons in Hin as [->|Hin]; [discriminate|].
    by apply not_elem_of_nil in Hin.
Defined.

(** ** Updating *)

Lemma first_match_split (post_id : Z) (l : list post) :
  (exists p, p ∈ l /\ id p = post_id) ->
  exists l1 p l2, l = l1 ++ p :: l2 /\ id p = post_id /\
    Forall (fun q => id q <> post_id) l1.
Proof.
  intros Hex. destruct (delete_first post_id l) as [l'|] eqn:E.
  - apply delete_first_Some in E as (l1 & p & l2 & H & Hp & Hl1 & _).
    by exists l1, p, l2.
  - apply delete_first_None in E. rewrite Forall_forall in E.
    destruct Hex as (p & Hin & Hp). by destruct (E p Hin).
Qed.

Lemma update_first_found (post_id : Z) (d : gmap string value)
    (l1 l2 : list post) (p : post) :
  id p = post_id -> Forall (fun q => id q <> post_id) l1 ->
  let u := Post post_id (default (title p) (d !! "title"))
                        (default (content p) (d !! "content")) in
  update_first post_id (Some d) (l1 ++ p :: l2) = Some (Ok (u, l1 ++ u :: l2)).
Proof.
  intros Hp Hl1 u. induction l1 as [|q l1 IH]; simpl.
  - rewrite <- Hp, Z.eqb_refl. simpl. subst u. by rewrite Hp.
  - apply Forall_cons in Hl1 as [Hq Hl1].
    apply Z.eqb_neq in Hq as ->. by rewrite (IH Hl1).
Qed.

Lemma update_first_None (post_id : Z) (payload : option (gmap string value))
    (l : list post) :
  Forall (fun q => id q <> post_id) l -> update_first post_id payload l = None.
Proof.
  induction 1 as [|q l Hq _ IH]; simpl; [done|].
  apply Z.eqb_neq in Hq as ->. by rewrite IH.
Qed.

(** C2. When some entry has the id, the first such entry takes the
    title of the body if the body has one, else keeps its own, and
    likewise the content; a second record with the same id and the same
    two values is put at the end of the store, which so grows by one; the
    reply is that record with status 200.  When no entry has the id the
    reply is 404 with the not-found message. *)
Theorem C2_update_rewrites_and_appends (posts : list post) (post_id : Z) :
  (forall d : gmap string value,
     (exists p, p ∈ posts /\ id p = post_id) ->
     exists l1 p l2,
       posts = l1 ++ p :: l2 /\ id p = post_id /\
       Forall (fun q => id q <> post_id) l1 /\
       let new_title :=
         match d !! "title" with Some t => t | None => title p end in
       let new_content :=
         match d !! "content" with Some c => c | None => content p end in
       let updated_post := Post post_id new_title new_content in
       update_post posts post_id (Some d)
         = (Response (JPost updated_post) 200,
            l1 ++ updated_post :: l2 ++ [updated_post]) /\
       length (update_post posts post_id (Some d)).2 = S (length posts)) /\
  (forall payload : option (gmap string value),
     ~ (exists p, p ∈ posts /\ id p = post_id) ->
     update_post posts post_id payload
       = (Response (JError (not_found_message post_id)) 404, posts)).
Proof.
  split.
  - intros d Hex.
    destruct (first_match_split post_id posts Hex)
      as (l1 & p & l2 & -> & Hp & Hl1).
    exists l1, p, l2. do 3 (split; [done|]). cbv zeta.
    unfold update_post.
    rewrite (update_first_found post_id d l1 l2 p Hp Hl1). unfold default.
    split.
    + by rewrite <- app_assoc.
    + cbn [snd]. rewrite !length_app. simpl. lia.
  - intros payload Hno. unfold update_post.
    rewrite update_first_None; [done|].
    apply Forall_forall. intros q Hq E. apply Hno. by exists q.
Qed.

Lemma C2_witness :
  (exists l1 p l2,
     POSTS = l1 ++ p :: l2 /\ id p = 1 /\
     Forall (fun q => id q <> 1) l1 /\
     let new_title :=
       match ({[ "content" := VStr "X" ]} : gmap string value) !! "title"
       with Some t => t | None => title p end in
     let new_content :=
       match ({[ "content" := VStr "X" ]} : gmap string value) !! "content"
       with Some c => c | None => content p end in
     let updated_post := Post 1 new_title new_content in
     update_post POSTS 1 (Some {[ "content" := VStr "X" ]})
       = (Response (JPost updated_post) 200,
          l1 ++ updated_post :: l2 ++ [updated_post]) /\
     length (update_post POSTS 1 (Some {[ "content" := VStr "X" ]})).2
       = S (length POSTS)) /\
  update_post POSTS 7 (Some {[ "content" := VStr "X" ]})
    = (Response (JError "Post with id 7 not found.") 404, POSTS).
Proof.
  split.
  - apply (C2_update_rewrites_and_appends POSTS 1).
    exists (Post 1 (VStr "First post") (VStr "This is the first post.")).
    split; [apply list_elem_of_here|reflexivity].
  - apply (C2_update_rewrites_and_appends POSTS 7).
    intros (p & Hin & Hp). revert Hp.
    apply elem_of_cons in Hin as [->|Hin]; [discriminate|].
    apply elem_of_cons in Hin as [->|Hin]; [discriminate|].
    by apply not_elem_of_nil in Hin.
Defined.

(** The scenario of the specification: only the content is sent. *)
Example update_content_only :
  update_post POSTS 1 (Some {[ "content" := VStr "X" ]})
    = (Response (JPost (Post 1 (VStr "First post") (VStr "X"))) 200,
       [ Post 1 (VStr "First post") (VStr "X");
         Post 2 (VStr "Second post") (VStr "This is the second post.");
         Post 1 (VStr "First post") (VStr "X") ]).
Proof. reflexivity. Qed.

(** ** Searching *)

Lemma lower_app (a b : string) : lower (a +:+ b) = lower a +:+ lower b.
Proof. induction a as [|x a IH]; simpl; [done|]. by rewrite IH. Qed.

Lemma lower_split (t x y : string) :
  lower t = x +:+ y -> exists a b, t = a +:+ b /\ lower a = x /\ lower b = y.
Proof.
  revert t. induction x as [|c x IH]; intros t H; simpl in H.
  - by exists "", t.
  - destruct t as [|c' t]; [discriminate|]. simpl in H. injection H as Hc H.
    destruct (IH t H) as (a & b & -> & Ha & Hb).
    exists (String c' a), b. simpl. by rewrite Hc, Ha.
Qed.

(** The test of the handler is the substring test with case ignored. *)
Lemma str_in_lower (f t : string) :
  str_in (lower f) (lower t) = true <-> ci_substring f t.
Proof.
  rewrite str_in_spec. split.
  - intros (x & y & H).
    destruct (lower_split t x _ H) as (pre & rest & -> & Hpre & Hrest).
    destruct (lower_split rest _ y Hrest) as (u & suf & -> & Hu & Hsuf).
    by exists pre, u, suf.
  - intros (pre & u & suf & -> & Hu).
    exists (lower pre), (lower suf). by rewrite !lower_app, Hu.
Qed.

Lemma filter_matches_text (search : option string) (t : string) :
  exists b, filter_matches search (VStr t) = Ok b /\
    (b = true <-> nonempty_hit search (VStr t)).
Proof.
  unfold filter_matches, nonempty_hit.
  destruct search as [f|]; simpl.
  - destruct (String.eqb_spec f "") as [->|Hf]; simpl.
    + exists false. split; [done|]. split; [done|].
      by intros (f & t' & [= <-] & Hne & _).
    + eexists. split; [done|]. rewrite str_in_lower. split.
      * intros H. by exists f, t.
      * by intros (f' & t' & [= <-] & _ & [= <-] & H).
  - exists false. split; [done|]. split; [done|]. by intros (f & t' & [=] & _).
Qed.

Lemma post_matches_text (search_title search_content : option string)
    (p : post) :
  text_post p ->
  exists b, post_matches search_title search_content p = Ok b /\
    (b = true <-> nonempty_hit search_title (title p)
                  \/ nonempty_hit search_content (content p)).
Proof.
  intros [Ht Hc]. unfold post_matches.
  destruct (title p) as [| | |t]; try done.
  destruct (content p) as [| | |c]; try done.
  destruct (filter_matches_text search_title t) as (b1 & -> & H1).
  destruct (filter_matches_text search_content c) as (b2 & E2 & H2).
  simpl. destruct b1.
  - exists true. split; [done|]. split; [|done]. intros _. left. by apply H1.
  - exists b2. split; [done|]. rewrite H2. split; [by right|].
    intros [H|H]; [|done]. by apply H1 in H.
Qed.

(** C5, as the code has it. On a store whose titles and contents are
    text, searching replies 200 with exactly the posts, in the order of
    the store, for which a non-empty title filter was given and occurs in
    the title with case ignored, or a non-empty content filter was given
    and occurs in the content with case ignored; no other reply is
    possible, and the list may be empty. *)
Theorem C5_search_selects (posts : list post)
    (search_title search_content : option string) :
  Forall text_post posts ->
  exists l,
    search_posts posts search_title search_content
      = Response (JPosts l) 200 /\
    exactly (fun p => nonempty_hit search_title (title p)
                      \/ nonempty_hit search_content (content p)) posts l.
Proof.
  intros Htext. unfold search_posts.
  induction Htext as [|p posts Hp _ (l & IH & Hex)]; simpl.
  - exists []. split; [done|constructor].
  - destruct (post_matches_text search_title search_content p Hp)
      as (b & -> & Hb).
    destruct (matching search_title search_content posts) as [r|e] eqn:E;
      [|discriminate].
    injection IH as ->. simpl. destruct b.
    + exists (p :: l). split; [done|]. constructor; [by apply Hb|done].
    + exists l. split; [done|]. apply exactly_skip; [|done].
      intros H. by apply Hb in H.
Qed.

Lemma C5_witness :
  exists l,
    search_posts POSTS (Some "OST") None = Response (JPosts l) 200 /\
    exactly (fun p => nonempty_hit (Some "OST") (title p)
                      \/ nonempty_hit None (content p)) POSTS l.
Proof.
  apply (C5_search_selects POSTS (Some "OST") None).
  repeat constructor.
Defined.

(** C5, as it is worded, fails on the seed store: the empty title filter
    is given and occurs in every title, yet the reply holds no post. *)
Lemma C5_counterexample :
  Forall text_post POSTS /\
  ~ exists l,
      search_posts POSTS (Some "") None = Response (JPosts l) 200 /\
      exactly (fun p => given_hit (Some "") (title p)
                        \/ given_hit None (content p)) POSTS l.
Proof.
  split; [repeat constructor|].
  intros (l & E & Hex). vm_compute in E. injection E as <-.
  inversion Hex as [| |p l r Hno _]; subst. apply Hno. left.
  exists "", "First post". repeat split. by exists "", "", "First post".
Qed.

(** [exactly] pins its result down. *)
Lemma exactly_functional (P : post -> Prop) (l r1 r2 : list post) :
  exactly P l r1 -> exactly P l r2 -> r1 = r2.
Proof.
  intros H1. revert r2.
  induction H1 as [|p l r Hp _ IH|p l r Hp _ IH]; intros r2 H2;
    inversion H2; subst; try done.
  f_equal. by apply IH.
  by apply IH.
Qed.

Lemma exactly_elem_of (P : post -> Prop) (l r : list post) (p : post) :
  exactly P l r -> (p ∈ r <-> p ∈ l /\ P p).
Proof.
  induction 1 as [|q l r Hq _ IH|q l r Hq _ IH].
  - split; [by intros ?%not_elem_of_nil|by intros [?%not_elem_of_nil _]].
  - rewrite !elem_of_cons, IH. split.
    + intros [->|[? ?]]; eauto.
    + intros [[->|?] ?]; eauto.
  - rewrite elem_of_cons, IH. split.
    + intros [? ?]; eauto.
    + intros [[->|?] ?]; [done|eauto].
Qed.

(** ** Validation of the sort parameters *)

(** C8, as the code has it. A sort field that is not empty and is neither
    title nor content is refused with status 400 and the message on sort
    fields.  A sort direction that is not empty and is neither asc nor
    desc is refused with status 400 and the message on sort directions,
    provided the sort field is absent, empty or allowed: the field is
    checked first. *)
Theorem C8_invalid_sort_parameters (posts : list post)
    (sort_field sort_direction : option string) (s : string) :
  (sort_field = Some s -> s <> "" -> s ∉ ["title"; "content"] ->
     get_posts posts sort_field sort_direction
       = Response
           (JError "Invalid sort field. Allowed values: title, content") 400) /\
  (sort_direction = Some s -> s <> "" -> s ∉ ["asc"; "desc"] ->
     sort_field ∈ [None; Some ""; Some "title"; Some "content"] ->
     get_posts posts sort_field sort_direction
       = Response
           (JError "Invalid sort direction. Allowed values: asc, desc") 400).
Proof.
  split.
  - intros -> Hne Hs. unfold get_posts. simpl.
    apply String.eqb_neq in Hne as ->. simpl.
    rewrite bool_decide_eq_false_2; [done|].
    intros H. apply Hs. set_unfold.
    destruct H as [[= ->]|[[= ->]|[]]]; auto.
  - intros -> Hne Hs Hf. unfold get_posts.
    assert (arg_truthy sort_field
            && negb (bool_decide (sort_field ∈ [Some "title"; Some "content"]))
            = false) as ->.
    { set_unfold in Hf. destruct Hf as [->|[->|[->|[->|[]]]]]; reflexivity. }
    simpl. apply String.eqb_neq in Hne as ->. simpl.
    rewrite bool_decide_eq_false_2; [done|].
    intros H. apply Hs. set_unfold.
    destruct H as [[= ->]|[[= ->]|[]]]; auto.
Qed.

Lemma C8_witness :
  get_posts POSTS (Some "id") None
    = Response
        (JError "Invalid sort field. Allowed values: title, content") 400 /\
  get_posts POSTS (Some "title") (Some "up")
    = Response
        (JError "Invalid sort direction. Allowed values: asc, desc") 400.
Proof.
  split.
  - apply (C8_invalid_sort_parameters POSTS (Some "id") None "id").
    + reflexivity.
    + discriminate.
    + intros H. apply elem_of_cons in H as [H|H]; [discriminate|].
      apply elem_of_cons in H as [H|H]; [discriminate|].
      by apply not_elem_of_nil in H.
  - apply (C8_invalid_sort_parameters POSTS (Some "title") (Some "up") "up").
    + reflexivity.
    + discriminate.
    + intros H. apply elem_of_cons in H as [H|H]; [discriminate|].
      apply elem_of_cons in H as [H|H]; [discriminate|].
      by apply not_elem_of_nil in H.
    + apply list_elem_of_further, list_elem_of_further, list_elem_of_here.
Defined.

(** What the handler replies where the wording of C8 fails. *)
Example empty_sort_field_lists :
  get_posts POSTS (Some "") None = Response (JPosts POSTS) 200.
Proof. reflexivity. Qed.

Example sort_field_checked_first :
  get_posts POSTS (Some "id") (Some "up")
    = Response
        (JError "Invalid sort field. Allowed values: title, content") 400.
Proof. reflexivity. Qed.

(** C8, as it is worded, fails twice on the seed store: the empty sort
    field is present and is not an allowed value, yet the reply is not
    the refusal (it is the list, with status 200); and an invalid
    direction beside an invalid field does not draw the message on sort
    directions (it draws the one on sort fields). *)
Lemma C8_counterexample :
  (("" ∉ ["title"; "content"]) /\
   get_posts POSTS (Some "") None
     <> Response
          (JError "Invalid sort field. Allowed values: title, content") 400) /\
  (("up" ∉ ["asc"; "desc"]) /\
   get_posts POSTS (Some "id") (Some "up")
     <> Response
          (JError "Invalid sort direction. Allowed values: asc, desc") 400).
Proof.
  repeat split; try discriminate.
  - intros H. apply elem_of_cons in H as [H|H]; [discriminate|].
    apply elem_of_cons in H as [H|H]; [discriminate|].
    by apply not_elem_of_nil in H.
  - intros H. apply elem_of_cons in H as [H|H]; [discriminate|].
    apply elem_of_cons in H as [H|H]; [discriminate|].
    by apply not_elem_of_nil in H.
Qed.

(** ** Empty query parameters *)

Lemma matching_empty_title (posts : list post) (c : option string) :
  matching (Some "") c posts = matching None c posts.
Proof. induction posts as [|p posts IH]; simpl; [done|]. by rewrite IH. Qed.

Lemma matching_empty_content (posts : list post) (t : option string) :
  matching t (Some "") posts = matching t None posts.
Proof. induction posts as [|p posts IH]; simpl; [done|]. by rewrite IH. Qed.

Lemma matching_no_filter (posts : list post) :
  matching None None posts = Ok [].
Proof. induction posts as [|p posts IH]; simpl; [done|]. by rewrite IH. Qed.

(** C10. A query parameter that is supplied empty acts as an absent one.
    In a search, an empty title or content filter gives the reply of the
    search without that filter, so that with both filters empty or absent
    the reply is the empty list.  In a listing, an empty sort field or
    direction gives the reply of the listing without that parameter, and
    when the other parameter is absent, empty or allowed that reply is
    the store in its own order with status 200: neither a refusal nor a
    sort. *)
Theorem C10_empty_parameter_is_absent (posts : list post) :
  (forall c, search_posts posts (Some "") c = search_posts posts None c) /\
  (forall t, search_posts posts t (Some "") = search_posts posts t None) /\
  (forall t c, t ∈ [None; Some ""] -> c ∈ [None; Some ""] ->
     search_posts posts t c = Response (JPosts []) 200) /\
  (forall d, get_posts posts (Some "") d = get_posts posts None d) /\
  (forall f, get_posts posts f (Some "") = get_posts posts f None) /\
  (forall f d, f = Some "" \/ d = Some "" ->
     f ∈ [None; Some ""; Some "title"; Some "content"] ->
     d ∈ [None; Some ""; Some "asc"; Some "desc"] ->
     get_posts posts f d = Response (JPosts posts) 200).
Proof.
  repeat apply conj.
  - intros c. unfold search_posts. by rewrite matching_empty_title.
  - intros t. unfold search_posts. by rewrite matching_empty_content.
  - intros t c Ht Hc. unfold search_posts.
    assert (matching t c posts = matching None None posts) as ->.
    { set_unfold in Ht. set_unfold in Hc.
      destruct Ht as [->|[->|[]]], Hc as [->|[->|[]]];
        by rewrite ?matching_empty_title, ?matching_empty_content. }
    by rewrite matching_no_filter.
  - intros d. reflexivity.
  - intros f. unfold get_posts. simpl.
    by rewrite !andb_false_r.
  - intros f d Hempty Hf Hd. set_unfold in Hf. set_unfold in Hd.
    destruct Hempty as [->| ->].
    + destruct Hd as [->|[->|[->|[->|[]]]]]; reflexivity.
    + destruct Hf as [->|[->|[->|[->|[]]]]]; reflexivity.
Qed.

Lemma C10_witness :
  search_posts POSTS (Some "") None = Response (JPosts []) 200 /\
  get_posts POSTS (Some "") (Some "desc") = Response (JPosts POSTS) 200.
Proof.
  split.
  - apply (C10_empty_parameter_is_absent POSTS).
    + apply list_elem_of_further, list_elem_of_here.
    + apply list_elem_of_here.
  - apply (C10_empty_parameter_is_absent POSTS).
    + by left.
    + apply list_elem_of_further, list_elem_of_here.
    + do 3 apply list_elem_of_further. apply list_elem_of_here.
Defined.

(** ** Ids *)

Lemma StronglySorted_lt_NoDup (l : list Z) :
  StronglySorted Z.lt l -> NoDup l.
Proof.
  induction 1 as [|x l _ IH Hx]; constructor; [|done].
  intros Hin. rewrite Forall_forall in Hx. specialize (Hx x Hin). lia.
Qed.

Lemma StronglySorted_lt_last (l : list post) (x : post) :
  StronglySorted Z.lt (ids l) -> last l = Some x ->
  Forall (fun y => y <= id x) (ids l).
Proof.
  unfold ids. induction l as [|p l IH]; intros Hs Hl; [done|].
  simpl in Hs. apply StronglySorted_cons in Hs as [Hp Hs].
  destruct l as [|q l].
  - injection Hl as ->. repeat constructor. simpl. lia.
  - change (last (q :: l) = Some x) in Hl. specialize (IH Hs Hl).
    constructor; [|done].
    assert (id x ∈ id <$> q :: l) as Hx.
    { apply list_elem_of_fmap. exists x. split; [done|].
      apply list_elem_of_In. rewrite last_Some in Hl.
      destruct Hl as [l' ->]. apply in_or_app. right. by left. }
    rewrite Forall_forall in Hp. specialize (Hp _ Hx). lia.
Qed.

(** Without updates the ids of the store increase along it. *)
Lemma handle_ids_increase (posts : list post) (r : request) :
  not_update r -> StronglySorted Z.lt (ids posts) ->
  StronglySorted Z.lt (ids (handle posts r).2).
Proof.
  intros Hr Hs. destruct r as [f d|b|i|i b|t c]; simpl; try done.
  - destruct (add_post_store posts b) as [->|[p E]]; [done|].
    rewrite E. simpl. unfold ids. rewrite fmap_app. simpl.
    apply StronglySorted_app. repeat split; [|done|repeat constructor].
    intros x1 x2 H1 ->%list_elem_of_singleton.
    assert (exists l, last posts = Some l /\ id p = id l + 1) as (l & Hl & ->).
    { unfold add_post in E. destruct b as [m|]; [|discriminate].
      destruct (negb (body_truthy (Some m))); [discriminate|].
      simpl in E. destruct (missing_fields m); [|discriminate].
      destruct (last posts) as [l|], (m !! "title"), (m !! "content");
        try discriminate.
      injection E as <- _. by exists l. }
    pose proof (StronglySorted_lt_last posts l Hs Hl) as Hle.
    rewrite Forall_forall in Hle. specialize (Hle x1 H1). lia.
  - unfold delete_post.
    destruct (delete_first i posts) as [posts'|] eqn:E; [|done].
    apply delete_first_Some in E as (l1 & p & l2 & -> & _ & _ & ->).
    simpl. unfold ids in *. rewrite fmap_app in *. simpl in Hs.
    apply StronglySorted_app in Hs as (H12 & H1 & H2).
    apply StronglySorted_cons in H2 as [_ H2].
    apply StronglySorted_app. repeat split; [|done|done].
    intros x1 x2 Hx1 Hx2. apply H12; [done|]. by apply list_elem_of_further.
Qed.

Lemma run_ids_increase (rs : list request) (posts : list post) :
  Forall not_update rs -> StronglySorted Z.lt (ids posts) ->
  StronglySorted Z.lt (ids (run posts rs)).
Proof.
  intros Hrs. revert posts.
  induction Hrs as [|r rs Hr _ IH]; intros posts Hs; [done|].
  simpl. apply IH. by apply handle_ids_increase.
Qed.

(** C1, as the code has it. After any sequence of list, create, delete
    and search requests from the seed store, no two posts of the store
    share an id, and the post a create replies with has an id that no
    post of the store had before it. *)
Theorem C1_ids_distinct_without_update (rs : list request) :
  Forall not_update rs ->
  NoDup (ids (run POSTS rs)) /\
  (forall b p, (add_post (run POSTS rs) b).1 = Response (JPost p) 201 ->
     (id p ∉ ids (run POSTS rs)) /\
     NoDup (ids (add_post (run POSTS rs) b).2)).
Proof.
  intros Hrs.
  assert (StronglySorted Z.lt (ids (run POSTS rs))) as Hs.
  { apply run_ids_increase; [done|]. repeat constructor. }
  split; [by apply StronglySorted_lt_NoDup|].
  intros b p Hb.
  pose proof (handle_ids_increase (run POSTS rs) (AddPost b) I Hs) as Hs'.
  simpl in Hs'. split; [|by apply StronglySorted_lt_NoDup].
  destruct (add_post_store (run POSTS rs) b) as [Hsame|[p' E]].
  - exfalso. unfold add_post in Hb, Hsame.
    destruct b as [m|]; [|discriminate].
    destruct (negb (body_truthy (Some m))); [discriminate|].
    simpl in Hb, Hsame. destruct (missing_fields m); [|discriminate].
    destruct (last (run POSTS rs)), (m !! "title"), (m !! "content");
      try discriminate.
    simpl in Hsame. apply (f_equal length) in Hsame.
    rewrite length_app in Hsame. simpl in Hsame. lia.
  - rewrite E in Hb, Hs'. injection Hb as ->. simpl in Hs'.
    unfold ids in *. rewrite fmap_app in Hs'. simpl in Hs'.
    apply StronglySorted_app in Hs' as (H12 & _ & _).
    intros Hin. specialize (H12 _ (id p) Hin (list_elem_of_here _ _)). lia.
Qed.

Lemma C1_witness :
  NoDup (ids (run POSTS
                [DeletePost 1;
                 AddPost (Some {[ "title" := VStr "T"; "content" := VStr "C" ]})])).
Proof.
  apply (C1_ids_distinct_without_update
           [DeletePost 1;
            AddPost (Some {[ "title" := VStr "T"; "content" := VStr "C" ]})]).
  repeat constructor.
Defined.

(** C1, as it is worded, fails on the seed store: one update leaves two
    posts with id 1 in the store. *)
Lemma C1_counterexample :
  ids (run POSTS [UpdatePost 1 (Some ∅)]) = [1; 2; 1] /\
  ~ NoDup (ids (run POSTS [UpdatePost 1 (Some ∅)])).
Proof.
  split; [reflexivity|].
  intros H. apply NoDup_cons in H as [H _]. apply H.
  apply list_elem_of_further, list_elem_of_here.
Qed.

(** The id of a post that was deleted from the end is given out again. *)
Example id_reused_after_delete :
  (add_post (run POSTS [DeletePost 2])
     (Some {[ "title" := VStr "T"; "content" := VStr "C" ]})).1
    = Response (JPost (Post 2 (VStr "T") (VStr "C"))) 201.
Proof. reflexivity. Qed.

(** ** Non-empty fields *)

(** [add_post] stores only what passed its check of the two fields. *)
Lemma add_post_nonempty (posts : list post)
    (b : option (gmap string value)) :
  Forall nonempty_post posts -> Forall nonempty_post (add_post posts b).2.
Proof.
  intros Hall. unfold add_post. destruct b as [m|]; [|done].
  destruct (negb (body_truthy (Some m))); [done|]. simpl.
  destruct (missing_fields m) eqn:Em; [|done].
  destruct (last posts), (m !! "title") as [t|] eqn:Et,
    (m !! "content") as [c|] eqn:Ec; try done.
  simpl. apply Forall_app. split; [done|]. repeat constructor; simpl.
  - destruct (truthy t) eqn:E; [done|].
    unfold missing_fields, required_fields, missing_field in Em. simpl in Em.
    rewrite Et, E in Em. discriminate.
  - destruct (truthy c) eqn:E; [done|].
    unfold missing_fields, required_fields, missing_field in Em. simpl in Em.
    rewrite Et, Ec, E in Em. simpl in Em. by destruct (truthy t).
Qed.

(** Listing, creating, deleting and searching keep every title and
    content of the store non-empty. *)
Lemma run_nonempty_without_update (rs : list request) (posts : list post) :
  Forall not_update rs -> Forall nonempty_post posts ->
  Forall nonempty_post (run posts rs).
Proof.
  intros Hrs. revert posts.
  induction Hrs as [|r rs Hr _ IH]; intros posts Hall; [done|].
  simpl. apply IH. destruct r as [f d|b|i|i b|t c]; simpl; try done.
  - by apply add_post_nonempty.
  - unfold delete_post.
    destruct (delete_first i posts) as [posts'|] eqn:E; [|done].
    apply delete_first_Some in E as (l1 & p & l2 & -> & _ & _ & ->).
    simpl. apply Forall_app in Hall as [H1 H2].
    apply Forall_cons in H2 as [_ H2]. by apply Forall_app.
Qed.

(** C9 fails on the code: [update_post] takes the title of the body as it
    comes, without the check [add_post] makes.  From the seed store, the
    body whose title is the empty string is accepted with status 200 and
    leaves two posts with an empty title in the store. *)
Theorem C9_update_stores_empty_title :
  handle POSTS (UpdatePost 1 (Some {[ "title" := VStr "" ]}))
    = (Response (JPost (Post 1 (VStr "") (VStr "This is the first post."))) 200,
       [ Post 1 (VStr "") (VStr "This is the first post.");
         Post 2 (VStr "Second post") (VStr "This is the second post.");
         Post 1 (VStr "") (VStr "This is the first post.") ]) /\
  ~ Forall nonempty_post (run POSTS [UpdatePost 1 (Some {[ "title" := VStr "" ]})]).
Proof.
  split; [reflexivity|].
  intros H. apply Forall_cons in H as [[H _] _]. discriminate.
Qed.

(** * Further properties of the handlers *)

(** ** The sort on arbitrary keys *)


Lemma py_lt_Exc (a b : value) (e : exn) : py_lt a b = Exc e -> e = TypeError.
Proof. destruct a as [|[]| |], b as [|[]| |]; simpl; congruence. Qed.

Lemma py_lt_irrefl (a : value) : py_lt a a <> Ok true.
Proof.
  destruct a as [|b|n|s]; simpl; try done.
  - by destruct b.
  - rewrite Z.ltb_irrefl. done.
  - unfold String.ltb. by rewrite string_compare_refl.
Qed.

Section SortGeneral.
Context {A : Type} (key : A -> value).

Lemma insert_sorted_perm (x : A) (l l' : list A) :
  insert_sorted key x l = Ok l' -> l' ≡ₚ x :: l.
Proof.
  revert l'. induction l as [|y l IH]; intros l'; simpl.
  - by intros [= <-].
  - destruct (py_lt (key y) (key x)) as [[]|e]; simpl; [|by intros [= <-]|done].
    destruct (insert_sorted key x l) as [l''|e]; simpl; [|done].
    intros [= <-]. rewrite (IH l'' eq_refl). apply perm_swap.
Qed.

Lemma sort_asc_perm (l s : list A) : sort_asc key l = Ok s -> s ≡ₚ l.
Proof.
  revert s. induction l as [|x l IH]; intros s; simpl.
  - by intros [= <-].
  - destruct (sort_asc key l) as [s'|e]; simpl; [|done].
    intros H%insert_sorted_perm. by rewrite H, (IH s' eq_refl).
Qed.

Lemma list_sort_perm (reverse : bool) (l s : list A) :
  list_sort key reverse l = Ok s -> s ≡ₚ l.
Proof.
  destruct reverse; simpl; [|apply sort_asc_perm].
  destruct (sort_asc key (rev l)) as [s'|e] eqn:E; simpl; [|done].
  intros [= <-]. apply sort_asc_perm in E.
  by rewrite <- Permutation_rev, E, <- Permutation_rev.
Qed.

Lemma insert_sorted_Exc (x : A) (l : list A) (e : exn) :
  insert_sorted key x l = Exc e -> e = TypeError.
Proof.
  induction l as [|y l IH]; simpl; [done|].
  destruct (py_lt (key y) (key x)) as [[]|e'] eqn:E; simpl.
  - destruct (insert_sorted key x l) as [l''|e'']; simpl; [done|].
    intros [= <-]. by apply IH.
  - done.
  - intros [= <-]. by apply py_lt_Exc in E.
Qed.

Lemma sort_asc_Exc (l : list A) (e : exn) :
  sort_asc key l = Exc e -> e = TypeError.
Proof.
  induction l as [|x l IH]; simpl; [done|].
  destruct (sort_asc key l) as [s|e']; simpl.
  - apply insert_sorted_Exc.
  - intros [= <-]. by apply IH.
Qed.

Lemma list_sort_Exc (reverse : bool) (l : list A) (e : exn) :
  list_sort key reverse l = Exc e -> e = TypeError.
Proof.
  destruct reverse; simpl; [|apply sort_asc_Exc].
  destruct (sort_asc key (rev l)) as [s|e'] eqn:E; simpl; [done|].
  intros [= <-]. by apply sort_asc_Exc in E.
Qed.





(** Entries whose keys are equal to a given key keep their order. *)
Lemma insert_sorted_stable (v : value) (x : A) (l l' : list A) :
  insert_sorted key x l = Ok l' ->
  filter (fun y => key y = v) l' = filter (fun y => key y = v) (x :: l).
Proof.
  revert l'. induction l as [|y l IH]; intros l'; simpl.
  - by intros [= <-].
  - destruct (py_lt (key y) (key x)) as [[]|e] eqn:E; simpl;
      [|by intros [= <-]|done].
    destruct (insert_sorted key x l) as [l''|e]; simpl; [|done].
    intros [= <-]. rewrite !filter_cons, (IH l'' eq_refl), filter_cons.
    destruct (decide (key y = v)) as [Hy|Hy], (decide (key x = v)) as [Hx|Hx];
      try done.
    rewrite Hy, Hx in E. by apply py_lt_irrefl in E.
Qed.

Lemma sort_asc_stable (v : value) (l s : list A) :
  sort_asc key l = Ok s ->
  filter (fun y => key y = v) s = filter (fun y => key y = v) l.
Proof.
  revert s. induction l as [|x l IH]; intros s; simpl.
  - by intros [= <-].
  - destruct (sort_asc key l) as [s'|e]; simpl; [|done].
    intros H%(insert_sorted_stable v). by rewrite H, !filter_cons, (IH s' eq_refl).
Qed.

Lemma filter_rev (P : A -> Prop) `{!forall y, Decision (P y)} (l : list A) :
  filter P (rev l) = rev (filter P l).
Proof.
  induction l as [|x l IH]; simpl; [done|].
  rewrite filter_app, IH, !filter_cons, filter_nil.
  destruct (decide (P x)); simpl; [done|by rewrite app_nil_r].
Qed.

Lemma list_sort_stable (v : value) (reverse : bool) (l s : list A) :
  list_sort key reverse l = Ok s ->
  filter (fun y => key y = v) s = filter (fun y => key y = v) l.
Proof.
  destruct reverse; simpl; [|apply sort_asc_stable].
  destruct (sort_asc key (rev l)) as [s'|e] eqn:E; simpl; [|done].
  intros [= <-]. apply (sort_asc_stable v) in E.
  by rewrite filter_rev, E, filter_rev, rev_involutive.
Qed.
End SortGeneral.




(** ** Listing: what the reply holds *)

Lemma sort_keys_Ok (k : string) (posts : list post)
    (keyed : list (value * post)) :
  sort_keys k posts = Ok keyed ->
  snd <$> keyed = posts /\ fst <$> keyed = field_values k posts /\
  Forall (fun kp => getitem kp.2 k = Some kp.1) keyed.
Proof.
  revert keyed. unfold field_values.
  induction posts as [|p posts IH]; intros keyed; csimpl.
  - by intros [= <-].
  - destruct (getitem p k) as [v|] eqn:Ev; [|done].
    destruct (sort_keys k posts) as [r|e]; csimpl; [|done].
    intros [= <-]. destruct (IH r eq_refl) as (H1 & H2 & H3).
    rewrite !fmap_cons, H1, H2. repeat split. by constructor.
Qed.

Lemma filter_keyed (k : string) (v : value) (s : list (value * post)) :
  Forall (fun kp => getitem kp.2 k = Some kp.1) s ->
  filter (fun p => getitem p k = Some v) (snd <$> s)
    = snd <$> filter (fun kp => kp.1 = v) s.
Proof.
  induction 1 as [|[w p] s Hp _ IH]; [done|]. simpl in Hp.
  rewrite fmap_cons, !filter_cons, IH. simpl. rewrite Hp.
  destruct (decide (Some w = Some v)) as [[= ->]|Hne].
  - by rewrite decide_True.
  - rewrite decide_False; [done|]. by intros ->.
Qed.

(** The three shapes of [get_posts]: a refusal, the store as it is, or
    the sort of the keyed store. *)
Lemma get_posts_cases (posts : list post)
    (sort_field sort_direction : option string) :
  (exists msg, get_posts posts sort_field sort_direction
                 = Response (JError msg) 400)
  \/ get_posts posts sort_field sort_direction = Response (JPosts posts) 200
  \/ exists f d,
       sort_field = Some f /\ sort_direction = Some d /\
       f ∈ ["title"; "content"] /\ d ∈ ["asc"; "desc"] /\
       get_posts posts sort_field sort_direction
         = match keyed ← sort_keys f posts;
                 list_sort fst (bool_decide (d = "desc")) keyed with
           | Ok s => Response (JPosts (snd <$> s)) 200
           | Exc e => Raises e
           end.
Proof.
  unfold get_posts.
  destruct (arg_truthy sort_field) eqn:Ef; simpl.
  2:{ destruct (arg_truthy sort_direction
                && negb (bool_decide (sort_direction ∈ [Some "asc"; Some "desc"])));
        [left; by eexists|right; by left]. }
  destruct (bool_decide (sort_field ∈ [Some "title"; Some "content"])) eqn:Hf;
    simpl; [|left; by eexists].
  destruct (arg_truthy sort_direction) eqn:Ed; simpl; [|right; by left].
  destruct (bool_decide (sort_direction ∈ [Some "asc"; Some "desc"])) eqn:Hd;
    simpl; [|left; by eexists].
  right. right.
  apply bool_decide_eq_true in Hf, Hd. set_unfold in Hf. set_unfold in Hd.
  destruct Hf as [->|[->|[]]], Hd as [->|[->|[]]]; eexists _, _;
    (split; [done|]); (split; [done|]); (split; [set_unfold; auto|]);
    (split; [set_unfold; auto|]); reflexivity.
Qed.

(** X1. Whenever the list operation replies with a list,
    whatever the parameters and whatever the fields hold, that list is a
    rearrangement of the store: no post is dropped, repeated or made up. *)
Theorem list_reply_is_permutation (posts l : list post)
    (sort_field sort_direction : option string) (status : Z) :
  get_posts posts sort_field sort_direction = Response (JPosts l) status ->
  status = 200 /\ l ≡ₚ posts.
Proof.
  destruct (get_posts_cases posts sort_field sort_direction)
    as [[msg ->]|[->|(f & d & _ & _ & _ & _ & ->)]]; [done|by intros [= <- <-]|].
  destruct (sort_keys f posts) as [keyed|e] eqn:Ek; simpl; [|done].
  apply sort_keys_Ok in Ek as (Hsnd & _ & _).
  destruct (list_sort fst (bool_decide (d = "desc")) keyed) as [s|e] eqn:Es;
    [|done].
  intros [= <- <-]. split; [done|].
  apply list_sort_perm in Es. by rewrite Es, Hsnd.
Qed.

Lemma list_reply_is_permutation_witness :
  200 = 200 /\
  [ Post 2 (VStr "Second post") (VStr "This is the second post.");
    Post 1 (VStr "First post") (VStr "This is the first post.") ] ≡ₚ POSTS.
Proof.
  apply (list_reply_is_permutation POSTS _ (Some "title") (Some "desc") 200).
  reflexivity.
Defined.

(** X2. The sort of the list operation is stable: in a reply
    to a request with a sort field, the posts that hold one same value in
    that field stand in the order they have in the store, for asc as for
    desc. *)
Theorem list_sort_is_stable (posts l : list post) (f : string)
    (sort_direction : option string) (v : value) :
  get_posts posts (Some f) sort_direction = Response (JPosts l) 200 ->
  filter (fun p => getitem p f = Some v) l
    = filter (fun p => getitem p f = Some v) posts.
Proof.
  destruct (get_posts_cases posts (Some f) sort_direction)
    as [[msg ->]|[->|(f' & d & [= <-] & _ & _ & _ & ->)]];
    [done|by intros [= <-]|].
  destruct (sort_keys f posts) as [keyed|e] eqn:Ek; simpl; [|done].
  apply sort_keys_Ok in Ek as (Hsnd & _ & Hkeys).
  destruct (list_sort fst (bool_decide (d = "desc")) keyed) as [s|e] eqn:Es;
    [|done].
  intros [= <-].
  assert (Forall (fun kp => getitem kp.2 f = Some kp.1) s) as Hs.
  { by rewrite (list_sort_perm _ _ _ _ Es). }
  rewrite (filter_keyed f v s Hs), <- Hsnd, (filter_keyed f v keyed Hkeys).
  f_equal. by apply (list_sort_stable fst v) in Es.
Qed.

Lemma list_sort_is_stable_witness :
  let store := [ Post 1 (VStr "b") (VStr "x"); Post 2 (VStr "a") (VStr "y");
                 Post 3 (VStr "b") (VStr "z") ] in
  filter (fun p => getitem p "title" = Some (VStr "b"))
         [ Post 1 (VStr "b") (VStr "x"); Post 3 (VStr "b") (VStr "z");
           Post 2 (VStr "a") (VStr "y") ]
    = filter (fun p => getitem p "title" = Some (VStr "b")) store.
Proof.
  intros store.
  apply (list_sort_is_stable store _ "title" (Some "desc") (VStr "b")).
  reflexivity.
Defined.



(** ** The empty store *)

Lemma handle_empty (r : request) : (handle [] r).2 = [].
Proof.
  destruct r as [f d|b|i|i b|t c]; simpl; try done.
  destruct (add_post_store [] b) as [H|[p H]]; [done|].
  unfold add_post in H. destruct b as [m|]; [|done].
  destruct (negb (body_truthy (Some m))); [done|].
  simpl in H. by destruct (missing_fields m).
Qed.

(** X4. Once the store is empty it stays empty, whatever requests
    follow: a create with a body that passes the check of the two fields
    raises [IndexError], because there is no last post to take the id
    from, and stores nothing. *)
Theorem empty_store_stays_empty (rs : list request)
    (d : gmap string value) :
  run [] rs = [] /\
  (~ absent_or_falsy d "title" -> ~ absent_or_falsy d "content" ->
     add_post [] (Some d) = (Raises IndexError, [])).
Proof.
  split.
  - induction rs as [|r rs IH]; simpl; [done|]. by rewrite handle_empty.
  - intros Ht%missing_field_false Hc%missing_field_false.
    unfold add_post. rewrite body_truthy_nonempty.
    2:{ intros ->. unfold missing_field in Ht. by rewrite lookup_empty in Ht. }
    unfold missing_fields. simpl. by rewrite Ht, Hc.
Qed.

Lemma empty_store_stays_empty_witness :
  add_post [] (Some {[ "title" := VStr "T"; "content" := VStr "C" ]})
    = (Raises IndexError, []).
Proof.
  apply (empty_store_stays_empty []
           {[ "title" := VStr "T"; "content" := VStr "C" ]}).
  - vm_compute. discriminate.
  - vm_compute. discriminate.
Defined.

(** ** Deleting and updating together *)

Lemma ids_app (l1 l2 : list post) : ids (l1 ++ l2) = ids l1 ++ ids l2.
Proof. unfold ids. apply fmap_app. Qed.

Lemma not_elem_of_ids (post_id : Z) (l : list post) :
  post_id ∉ ids l <-> Forall (fun q => id q <> post_id) l.
Proof.
  unfold ids. rewrite Forall_forall. split.
  - intros H q Hq E. apply H, list_elem_of_fmap. by exists q.
  - intros H (q & -> & Hq)%list_elem_of_fmap. by apply (H q).
Qed.

(** X5. On a store whose ids are pairwise distinct, a delete that finds
    the id leaves no post with that id: the store is one shorter and a
    second delete of the same id replies 404 and changes nothing. *)
Theorem delete_removes_the_id (posts : list post) (post_id : Z) :
  NoDup (ids posts) -> post_id ∈ ids posts ->
  let store := (delete_post posts post_id).2 in
  (post_id ∉ ids store) /\
  S (length store) = length posts /\
  delete_post store post_id
    = (Response (JError (not_found_message post_id)) 404, store).
Proof.
  intros Hnd Hin store. subst store. unfold delete_post.
  destruct (delete_first post_id posts) as [posts'|] eqn:E.
  2:{ apply delete_first_None, not_elem_of_ids in E. done. }
  apply delete_first_Some in E as (l1 & p & l2 & -> & Hp & Hl1 & ->).
  cbn [snd].
  assert (Forall (fun q => id q <> post_id) (l1 ++ l2)) as Hgone.
  { apply Forall_app. split; [done|].
    rewrite ids_app in Hnd. apply NoDup_app in Hnd as (_ & _ & Hnd).
    unfold ids in Hnd. rewrite fmap_cons in Hnd.
    apply NoDup_cons in Hnd as [Hnd _]. rewrite Hp in Hnd.
    by apply not_elem_of_ids. }
  split; [by apply not_elem_of_ids|]. split.
  - rewrite !length_app. simpl. lia.
  - apply delete_first_None in Hgone. by rewrite Hgone.
Qed.

Lemma delete_removes_the_id_witness :
  let store := (delete_post POSTS 1).2 in
  (1 ∉ ids store) /\
  S (length store) = length POSTS /\
  delete_post store 1
    = (Response (JError (not_found_message 1)) 404, store).
Proof.
  apply (delete_removes_the_id POSTS 1).
  - repeat constructor.
    + intros H. apply list_elem_of_singleton in H. discriminate.
    + apply not_elem_of_nil.
  - apply list_elem_of_here.
Defined.

(** X6. [update_post] never changes an id, whatever the body holds (a
    key "id" in it is not read): when it replies 200 the post of the
    reply has the id of the request and the ids of the store are the old
    ones followed by that id once more; in every other case the store is
    as it was. *)
Theorem update_keeps_ids (posts : list post) (post_id : Z)
    (payload : option (gmap string value)) :
  (exists u,
     (update_post posts post_id payload).1 = Response (JPost u) 200 /\
     id u = post_id /\
     ids (update_post posts post_id payload).2 = ids posts ++ [post_id])
  \/ ((forall u, (update_post posts post_id payload).1
                 <> Response (JPost u) 200)
      /\ (update_post posts post_id payload).2 = posts).
Proof.
  destruct (delete_first post_id posts) as [posts'|] eqn:E.
  - apply delete_first_Some in E as (l1 & p & l2 & -> & Hp & Hl1 & _).
    destruct payload as [d|].
    + left. unfold update_post.
      rewrite (update_first_found post_id d l1 l2 p Hp Hl1).
      eexists. split; [done|]. split; [done|]. cbn [snd].
      rewrite !ids_app. unfold ids. rewrite !fmap_cons. simpl.
      by rewrite Hp, <- app_assoc.
    + right. unfold update_post.
      assert (update_first post_id None (l1 ++ p :: l2)
              = Some (Exc AttributeError)) as ->; [|done].
      clear -Hp Hl1. induction l1 as [|q l1 IH]; simpl.
      * by rewrite <- Hp, Z.eqb_refl.
      * apply Forall_cons in Hl1 as [Hq Hl1].
        apply Z.eqb_neq in Hq as ->. by rewrite (IH Hl1).
  - right. apply delete_first_None in E. unfold update_post.
    by rewrite update_first_None.
Qed.

(** X7. Deleting a post right after updating it takes away the entry
    that was rewritten and leaves the copy that the update appended: the
    store is as long as before the update, its last entry is the record
    of the update's reply, and the id is still in the store. *)
Theorem delete_after_update_leaves_copy (posts : list post) (post_id : Z)
    (d : gmap string value) :
  post_id ∈ ids posts ->
  exists l1 p l2 u,
    posts = l1 ++ p :: l2 /\ id p = post_id /\
    Forall (fun q => id q <> post_id) l1 /\
    (update_post posts post_id (Some d)).1 = Response (JPost u) 200 /\
    (delete_post (update_post posts post_id (Some d)).2 post_id).2
      = l1 ++ l2 ++ [u] /\
    post_id ∈ ids (delete_post (update_post posts post_id (Some d)).2
                                post_id).2.
Proof.
  intros Hin.
  destruct (delete_first post_id posts) as [posts'|] eqn:E.
  2:{ apply delete_first_None, not_elem_of_ids in E. done. }
  apply delete_first_Some in E as (l1 & p & l2 & -> & Hp & Hl1 & _).
  exists l1, p, l2. eexists. do 3 (split; [done|]).
  unfold update_post.
  rewrite (update_first_found post_id d l1 l2 p Hp Hl1). cbn [fst snd].
  split; [done|].
  assert (delete_first post_id
            ((l1 ++ {| id := post_id;
                       title := default (title p) (d !! "title");
                       content := default (content p) (d !! "content") |}
                 :: l2) ++
             [{| id := post_id;
                 title := default (title p) (d !! "title");
                 content := default (content p) (d !! "content") |}])
          = Some (l1 ++ l2 ++
                  [{| id := post_id;
                      title := default (title p) (d !! "title");
                      content := default (content p) (d !! "content") |}]))
    as Hdel.
  { apply delete_first_Some. eexists l1, _, _. rewrite <- app_assoc.
    split; [done|]. by repeat split. }
  unfold delete_post. rewrite Hdel. cbn [snd]. split; [done|].
  rewrite !ids_app. apply elem_of_app. right. apply elem_of_app. right.
  apply list_elem_of_here.
Qed.

Lemma delete_after_update_leaves_copy_witness :
  1 ∈ ids (delete_post (update_post POSTS 1 (Some ∅)).2 1).2.
Proof.
  destruct (delete_after_update_leaves_copy POSTS 1 ∅)
    as (l1 & p & l2 & u & _ & _ & _ & _ & _ & H).
  - apply list_elem_of_here.
  - exact H.
Defined.

(** ** Creating: ids and bodies *)

Lemma add_post_accepts (posts : list post) (lp : post)
    (d : gmap string value) (t c : value) :
  last posts = Some lp ->
  d !! "title" = Some t -> truthy t = true ->
  d !! "content" = Some c -> truthy c = true ->
  add_post posts (Some d)
    = (Response (JPost (Post (id lp + 1) t c)) 201,
       posts ++ [Post (id lp + 1) t c]).
Proof.
  intros Hl Ht Htt Hc Hct. unfold add_post.
  rewrite body_truthy_nonempty.
  2:{ intros ->. by rewrite lookup_empty in Ht. }
  unfold missing_fields, required_fields, missing_field. simpl.
  by rewrite Ht, Hc, Htt, Hct, Hl.
Qed.

(** X8. Ids are given out again: when the last post is deleted and its
    id was one more than the id of the post before it, the next create
    gives its new post that same id. *)
Theorem id_reused_after_deleting_last (l : list post) (q p : post)
    (d : gmap string value) (t c : value) :
  id p = id q + 1 -> id p ∉ ids (l ++ [q]) ->
  d !! "title" = Some t -> truthy t = true ->
  d !! "content" = Some c -> truthy c = true ->
  delete_post (l ++ [q; p]) (id p)
    = (Response (JMessage (deleted_message (id p))) 200, l ++ [q]) /\
  add_post (delete_post (l ++ [q; p]) (id p)).2 (Some d)
    = (Response (JPost (Post (id p) t c)) 201,
       l ++ [q; Post (id p) t c]).
Proof.
  intros Hid Hnew Ht Htt Hc Hct.
  assert (delete_first (id p) (l ++ [q; p]) = Some (l ++ [q])) as Hdel.
  { apply delete_first_Some. exists (l ++ [q]), p, [].
    rewrite <- app_assoc, app_nil_r. repeat split.
    by apply not_elem_of_ids. }
  unfold delete_post. rewrite Hdel. split; [done|]. cbn [snd].
  rewrite (add_post_accepts (l ++ [q]) q d t c); try done.
  - by rewrite <- Hid, <- app_assoc.
  - apply last_snoc.
Qed.

Lemma id_reused_after_deleting_last_witness :
  add_post (delete_post POSTS 2).2
           (Some {[ "title" := VStr "T"; "content" := VStr "C" ]})
    = (Response (JPost (Post 2 (VStr "T") (VStr "C"))) 201,
       [ Post 1 (VStr "First post") (VStr "This is the first post.");
         Post 2 (VStr "T") (VStr "C") ]).
Proof.
  apply (id_reused_after_deleting_last []
           (Post 1 (VStr "First post") (VStr "This is the first post."))
           (Post 2 (VStr "Second post") (VStr "This is the second post."))
           {[ "title" := VStr "T"; "content" := VStr "C" ]}
           (VStr "T") (VStr "C")).
  - reflexivity.
  - intros H. apply list_elem_of_singleton in H. discriminate.
  - reflexivity.
  - reflexivity.
  - reflexivity.
  - reflexivity.
Defined.

(** X9. [add_post] reads only the keys title and content: any other key
    of a body that is not empty changes nothing.  A body that holds only
    such a key is not empty, so it is refused for the two missing fields
    and not for want of data. *)
Theorem create_ignores_other_keys (posts : list post)
    (d : gmap string value) (k : string) (v : value) :
  k <> "title" -> k <> "content" ->
  (d <> ∅ -> add_post posts (Some (<[k := v]> d)) = add_post posts (Some d)) /\
  add_post posts (Some {[ k := v ]})
    = (Response (JError "Missing or empty fields: title, content") 400, posts).
Proof.
  intros Hkt Hkc.
  assert (forall m : gmap string value,
            missing_fields (<[k := v]> m) = missing_fields m) as Hm.
  { intros m. unfold missing_fields, required_fields, missing_field. simpl.
    by rewrite !lookup_insert_ne. }
  split.
  - intros Hd. unfold add_post.
    rewrite !body_truthy_nonempty by (done || apply insert_non_empty).
    simpl. rewrite Hm. by rewrite !lookup_insert_ne.
  - unfold add_post. rewrite body_truthy_nonempty
      by apply map_non_empty_singleton.
    simpl. unfold missing_fields, required_fields, missing_field. simpl.
    by rewrite !lookup_singleton_ne.
Qed.

Lemma create_ignores_other_keys_witness :
  add_post POSTS (Some {[ "author" := VStr "me" ]})
    = (Response (JError "Missing or empty fields: title, content") 400, POSTS).
Proof.
  apply (create_ignores_other_keys POSTS ∅ "author" (VStr "me")).
  - discriminate.
  - discriminate.
Defined.

(** ** What a reply tells about the store *)

Lemma update_first_shape (post_id : Z) (payload : option (gmap string value))
    (l l' : list post) (u : post) :
  update_first post_id payload l = Some (Ok (u, l')) -> length l' = length l.
Proof.
  revert u l'. induction l as [|p l IH]; intros u l'; simpl; [done|].
  destruct (Z.eqb (id p) post_id).
  - destruct payload as [d|]; simpl; [|done]. by intros [= _ <-].
  - destruct (update_first post_id payload l) as [[[u' l'']|e]|]; simpl;
      [|done|done].
    intros [= _ <-]. simpl. by rewrite (IH u' l'' eq_refl).
Qed.

(** The replies of [add_post]: the created post, a refusal, or an
    exception; the store is written only with the first. *)
Lemma add_post_replies (posts : list post)
    (payload : option (gmap string value)) :
  (exists p, add_post posts payload
               = (Response (JPost p) 201, posts ++ [p]))
  \/ (exists msg, add_post posts payload = (Response (JError msg) 400, posts))
  \/ (exists e, add_post posts payload = (Raises e, posts)).
Proof.
  unfold add_post. destruct payload as [d|]; [|right; left; by eexists].
  destruct (negb (body_truthy (Some d))); [right; left; by eexists|].
  simpl. destruct (missing_fields d); [|right; left; by eexists].
  destruct (last posts), (d !! "title"), (d !! "content");
    first [ left; by eexists | right; right; by eexists ].
Qed.

(** X10. The reply tells what became of the store.  If it carries a
    single post (a create or an update that went through), that post is
    now the last entry and the store is one longer; if it carries the
    message of a delete, the store is one shorter; after any other reply
    or exception the store is what it was. *)
Theorem reply_tells_store_change (posts : list post) (r : request) :
  match (handle posts r).1 with
  | Response (JPost p) _ =>
      last (handle posts r).2 = Some p /\
      length (handle posts r).2 = S (length posts)
  | Response (JMessage _) _ => S (length (handle posts r).2) = length posts
  | _ => (handle posts r).2 = posts
  end.
Proof.
  destruct r as [f d|b|i|i b|t c]; simpl.
  - destruct (get_posts_cases posts f d) as [[msg ->]|[->|(f' & d' & _ & _ & _ & _ & ->)]];
      try done.
    by destruct (_ ≫= _).
  - destruct (add_post_replies posts b) as [[p ->]|[[msg ->]|[e ->]]];
      simpl; [|done|done].
    rewrite last_snoc, length_app. simpl. split; [done|lia].
  - unfold delete_post.
    destruct (delete_first i posts) as [posts'|] eqn:E; simpl; [|done].
    apply delete_first_Some in E as (l1 & p & l2 & -> & _ & _ & ->).
    rewrite !length_app. simpl. lia.
  - unfold update_post.
    destruct (update_first i b posts) as [[[u l']|e]|] eqn:E; simpl; try done.
    apply update_first_shape in E.
    rewrite last_snoc, length_app, E. simpl. split; [done|lia].
  - unfold search_posts. by destruct (matching t c posts).
Qed.

(** ** Searching: case, union, and fields that are not text *)

Lemma lower_empty (f : string) : lower f = "" -> f = "".
Proof. by destruct f. Qed.

Lemma filter_matches_lower (f g : string) (v : value) :
  lower f = lower g ->
  filter_matches (Some f) v = filter_matches (Some g) v.
Proof.
  intros H. unfold filter_matches. simpl.
  destruct (String.eqb_spec f "") as [->|Hf], (String.eqb_spec g "") as [->|Hg];
    simpl; try done.
  - simpl in H. symmetry in H. by apply lower_empty in H.
  - simpl in H. by apply lower_empty in H.
  - by rewrite H.
Qed.

(** X11. Searching does not look at the case of a filter: two title
    filters that agree when lowered give the same reply, and so do two
    content filters, on every store. *)
Theorem search_ignores_filter_case (posts : list post) (f g : string)
    (other : option string) :
  lower f = lower g ->
  search_posts posts (Some f) other = search_posts posts (Some g) other /\
  search_posts posts other (Some f) = search_posts posts other (Some g).
Proof.
  intros H. unfold search_posts.
  assert (matching (Some f) other posts = matching (Some g) other posts) as ->.
  { induction posts as [|p posts IH]; simpl; [done|].
    unfold post_matches. by rewrite (filter_matches_lower f g _ H), IH. }
  assert (matching other (Some f) posts = matching other (Some g) posts) as ->.
  { induction posts as [|p posts IH]; simpl; [done|].
    unfold post_matches. by rewrite (filter_matches_lower f g _ H), IH. }
  done.
Qed.

Lemma search_ignores_filter_case_witness :
  search_posts POSTS (Some "FIRST") None = search_posts POSTS (Some "first") None.
Proof.
  apply (search_ignores_filter_case POSTS "FIRST" "first" None).
  reflexivity.
Defined.

Lemma matching_text (posts : list post)
    (search_title search_content : option string) :
  Forall text_post posts ->
  exists l,
    matching search_title search_content posts = Ok l /\
    exactly (fun p => nonempty_hit search_title (title p)
                      \/ nonempty_hit search_content (content p)) posts l.
Proof.
  induction 1 as [|p posts Hp _ (l & IH & Hex)]; simpl.
  - exists []. split; [done|constructor].
  - destruct (post_matches_text search_title search_content p Hp)
      as (b & -> & Hb).
    rewrite IH. simpl. destruct b.
    + exists (p :: l). split; [done|]. constructor; [by apply Hb|done].
    + exists l. split; [done|]. apply exactly_skip; [|done].
      intros H. by apply Hb in H.
Qed.

Lemma nonempty_hit_None (v : value) : ~ nonempty_hit None v.
Proof. by intros (f & t & [=] & _). Qed.

(** X12. The two filters widen a search.  On a store of text posts the
    posts found with both filters are those found with the title filter
    alone together with those found with the content filter alone. *)
Theorem search_is_union (posts : list post)
    (search_title search_content : option string) :
  Forall text_post posts ->
  exists l lt lc,
    search_posts posts search_title search_content
      = Response (JPosts l) 200 /\
    search_posts posts search_title None = Response (JPosts lt) 200 /\
    search_posts posts None search_content = Response (JPosts lc) 200 /\
    forall p, p ∈ l <-> p ∈ lt \/ p ∈ lc.
Proof.
  intros Htext. unfold search_posts.
  destruct (matching_text posts search_title search_content Htext)
    as (l & -> & Hl).
  destruct (matching_text posts search_title None Htext) as (lt & -> & Hlt).
  destruct (matching_text posts None search_content Htext) as (lc & -> & Hlc).
  exists l, lt, lc. do 3 (split; [done|]). intros p.
  rewrite (exactly_elem_of _ _ _ p Hl), (exactly_elem_of _ _ _ p Hlt),
    (exactly_elem_of _ _ _ p Hlc).
  pose proof (nonempty_hit_None (title p)).
  pose proof (nonempty_hit_None (content p)).
  tauto.
Qed.

Lemma search_is_union_witness :
  exists l lt lc,
    search_posts POSTS (Some "first") (Some "second")
      = Response (JPosts l) 200 /\
    search_posts POSTS (Some "first") None = Response (JPosts lt) 200 /\
    search_posts POSTS None (Some "second") = Response (JPosts lc) 200 /\
    forall p, p ∈ l <-> p ∈ lt \/ p ∈ lc.
Proof.
  apply (search_is_union POSTS (Some "first") (Some "second")).
  repeat constructor.
Defined.

Lemma filter_matches_Exc (search : option string) (v : value) (e : exn) :
  filter_matches search v = Exc e -> e = AttributeError.
Proof.
  unfold filter_matches. destruct (arg_truthy search); [|done].
  destruct v; congruence.
Qed.

Lemma matching_Exc (search_title search_content : option string)
    (posts : list post) (e : exn) :
  matching search_title search_content posts = Exc e -> e = AttributeError.
Proof.
  induction posts as [|p posts IH]; simpl; [done|]. unfold post_matches.
  destruct (filter_matches search_title (title p)) as [[]|e1] eqn:E1; simpl.
  - destruct (matching _ _ posts); simpl; [done|].
    intros [= <-]. by apply IH.
  - destruct (filter_matches search_content (content p)) as [b|e2] eqn:E2;
      simpl.
    + destruct (matching _ _ posts); simpl; [done|].
      intros [= <-]. by apply IH.
    + intros [= <-]. by apply filter_matches_Exc in E2.
  - intros [= <-]. by apply filter_matches_Exc in E1.
Qed.

Lemma matching_sublist (search_title search_content : option string)
    (posts l : list post) :
  matching search_title search_content posts = Ok l -> l `sublist_of` posts.
Proof.
  revert l. induction posts as [|p posts IH]; intros l; simpl.
  - by intros [= <-].
  - destruct (post_matches _ _ p) as [b|e]; simpl; [|done].
    destruct (matching _ _ posts) as [r|e]; simpl; [|done].
    intros [= <-]. specialize (IH r eq_refl).
    destruct b; by constructor.
Qed.

(** X13. A search has two outcomes only, on any store: it raises
    [AttributeError], or it replies 200 with posts of the store in the
    order of the store, none of them twice as often as the store has it. *)
Theorem search_outcomes (posts : list post)
    (search_title search_content : option string) :
  search_posts posts search_title search_content = Raises AttributeError
  \/ exists l,
       search_posts posts search_title search_content
         = Response (JPosts l) 200 /\
       l `sublist_of` posts.
Proof.
  unfold search_posts.
  destruct (matching search_title search_content posts) as [l|e] eqn:E.
  - right. exists l. split; [done|]. by apply matching_sublist in E.
  - left. by rewrite (matching_Exc _ _ _ _ E).
Qed.




(** ** Round trips *)

(** X15. An update sent twice gives the same reply twice: the second
    one finds the values the first one wrote; only the store differs, by
    one more copy at its end. *)
Theorem update_twice_same_reply (posts : list post) (post_id : Z)
    (d : gmap string value) :
  post_id ∈ ids posts ->
  exists u,
    (update_post posts post_id (Some d)).1 = Response (JPost u) 200 /\
    update_post (update_post posts post_id (Some d)).2 post_id (Some d)
      = (Response (JPost u) 200,
         (update_post posts post_id (Some d)).2 ++ [u]).
Proof.
  intros Hin.
  destruct (delete_first post_id posts) as [posts'|] eqn:E.
  2:{ apply delete_first_None, not_elem_of_ids in E. done. }
  apply delete_first_Some in E as (l1 & p & l2 & -> & Hp & Hl1 & _).
  unfold update_post at 1 3 4.
  rewrite (update_first_found post_id d l1 l2 p Hp Hl1). cbn [fst snd].
  eexists. split; [done|]. unfold update_post.
  rewrite <- app_assoc. simpl.
  rewrite (update_first_found post_id d l1 _ (Post post_id _ _) eq_refl Hl1).
  simpl.
  assert (forall (x : value) (o : option value),
            default (default x o) o = default x o) as Hdd
    by (by intros x []).
  by rewrite !Hdd, <- !app_assoc.
Qed.

Lemma update_twice_same_reply_witness :
  exists u,
    (update_post POSTS 2 (Some {[ "title" := VStr "New" ]})).1
      = Response (JPost u) 200 /\
    update_post (update_post POSTS 2 (Some {[ "title" := VStr "New" ]})).2 2
                (Some {[ "title" := VStr "New" ]})
      = (Response (JPost u) 200,
         (update_post POSTS 2 (Some {[ "title" := VStr "New" ]})).2 ++ [u]).
Proof.
  apply (update_twice_same_reply POSTS 2 {[ "title" := VStr "New" ]}).
  apply list_elem_of_further, list_elem_of_here.
Defined.

(** X16. Creating a post and then deleting the id of the reply gives
    back the store as it was, provided that id was not already in the
    store (as it can be after an update, whose copy may sit anywhere
    before the end). *)
Theorem create_then_delete_restores (posts : list post) (lp : post)
    (d : gmap string value) (t c : value) :
  last posts = Some lp -> (id lp + 1 ∉ ids posts) ->
  d !! "title" = Some t -> truthy t = true ->
  d !! "content" = Some c -> truthy c = true ->
  (add_post posts (Some d)).1 = Response (JPost (Post (id lp + 1) t c)) 201 /\
  delete_post (add_post posts (Some d)).2 (id lp + 1)
    = (Response (JMessage (deleted_message (id lp + 1))) 200, posts).
Proof.
  intros Hl Hnew Ht Htt Hc Hct.
  rewrite (add_post_accepts posts lp d t c) by done. split; [done|].
  cbn [snd]. unfold delete_post.
  assert (delete_first (id lp + 1) (posts ++ [Post (id lp + 1) t c])
          = Some posts) as ->; [|done].
  apply delete_first_Some. exists posts, (Post (id lp + 1) t c), [].
  rewrite app_nil_r. repeat split. by apply not_elem_of_ids.
Qed.

Lemma create_then_delete_restores_witness :
  delete_post
    (add_post POSTS (Some {[ "title" := VStr "T"; "content" := VStr "C" ]})).2
    3
    = (Response (JMessage (deleted_message 3)) 200, POSTS).
Proof.
  apply (create_then_delete_restores POSTS
           (Post 2 (VStr "Second post") (VStr "This is the second post."))
           {[ "title" := VStr "T"; "content" := VStr "C" ]}
           (VStr "T") (VStr "C")).
  - reflexivity.
  - intros H. apply elem_of_cons in H as [H|H]; [discriminate|].
    apply list_elem_of_singleton in H. discriminate.
  - reflexivity.
  - reflexivity.
  - reflexivity.
  - reflexivity.
Defined.

Lemma string_app_empty_r (t : string) : t +:+ "" = t.
Proof.
  induction t as [|a t IH]; [done|].
  change (String a (t +:+ "") = String a t). by rewrite IH.
Qed.

(** X17. A post that was just created is found by its own title: on a
    store of text posts that is not empty, after a create with a text
    title and a text content, both not empty, the search for that title,
    in any case of letters, lists the new post. *)
Theorem created_post_is_found (posts : list post) (t c f : string)
    (search_content : option string) :
  Forall text_post posts -> posts <> [] -> t <> "" -> c <> "" ->
  lower f = lower t ->
  exists p l,
    add_post posts (Some {[ "title" := VStr t; "content" := VStr c ]})
      = (Response (JPost p) 201, posts ++ [p]) /\
    search_posts (posts ++ [p]) (Some f) search_content
      = Response (JPosts l) 200 /\
    p ∈ l.
Proof.
  intros Htext Hne Ht Hc Hf.
  destruct (last posts) as [lp|] eqn:El.
  2:{ by apply last_None in El. }
  exists (Post (id lp + 1) (VStr t) (VStr c)).
  assert (Forall text_post (posts ++ [Post (id lp + 1) (VStr t) (VStr c)]))
    as Htext'.
  { apply Forall_app. split; [done|]. by repeat constructor. }
  destruct (matching_text _ (Some f) search_content Htext') as (l & Hl & Hex).
  exists l. split; [|split].
  - apply (add_post_accepts posts lp _ (VStr t) (VStr c) El); try done.
    + simpl. by apply String.eqb_neq in Ht as ->.
    + simpl. by apply String.eqb_neq in Hc as ->.
  - unfold search_posts. by rewrite Hl.
  - apply (exactly_elem_of _ _ _ _ Hex). split.
    + apply elem_of_app. right. apply list_elem_of_here.
    + left. exists f, t. split; [done|]. split.
      * intros ->. simpl in Hf. symmetry in Hf. by apply lower_empty in Hf.
      * split; [done|]. exists "", t, "". by rewrite string_app_empty_r.
Qed.

Lemma created_post_is_found_witness :
  exists p l,
    add_post POSTS (Some {[ "title" := VStr "Third"; "content" := VStr "Body" ]})
      = (Response (JPost p) 201, POSTS ++ [p]) /\
    search_posts (POSTS ++ [p]) (Some "THIRD") None
      = Response (JPosts l) 200 /\
    p ∈ l.
Proof.
  apply (created_post_is_found POSTS "Third" "Body" "THIRD" None).
  - repeat constructor.
  - discriminate.
  - discriminate.
  - discriminate.
  - reflexivity.
Defined.
